(** * Shunting-yard calculator (calculator.c): a shallow embedding

    The development follows the layout of [calculator.c]:
    - the token and value enumerations and the structs built on them;
    - the value repository, a singly linked list of heap cells that is used
      as a stack ([push], [pop], [peek]) and as a queue ([append], [reset],
      [get]);
    - the input buffer with its cursor and the tokenizer ([consume_token]
      with its helpers [read_symbol] and [read_number]);
    - [precedence], [str_to_num], and the two entry points [convert] and
      [solve] as they stand in the source;
    - the rest of the program: [tokToStr], [print_var] and [show_vars], the
      dispatch of a line in [main], and the capacity that [load_buf]
      computes.

    C pointers are addresses into a heap of cells, [None] being the NULL
    pointer.  A call either returns ([Ok]), or it steps outside what C
    defines ([Fault]: a NULL or dangling dereference, a write past the end of
    a local array), or it exhausts the iteration budget of a loop
    ([Timeout]); the budgets that [consume_token] and [convert] work with
    are shown to be sufficient. *)

From Stdlib Require Import ZArith Ascii String List Bool Lia.
From stdpp Require Import base option list gmap.

Local Open Scope Z_scope.

(** ** Outcomes of a call *)

Inductive outcome (A : Type) : Type :=
| Ok (a : A)
| Fault
| Timeout.

Arguments Ok {A} a.
Arguments Fault {A}.
Arguments Timeout {A}.

Definition obind {A B : Type} (x : outcome A) (f : A -> outcome B) : outcome B :=
  match x with
  | Ok a => f a
  | Fault => Fault
  | Timeout => Timeout
  end.

Definition omap {A B : Type} (f : A -> B) (x : outcome A) : outcome B :=
  obind x (fun a => Ok (f a)).

Notation "'do' x <~ e ; k" := (obind e (fun x => k))
  (at level 10, x name, e at level 100, k at level 200).

(** ** Enumerations and structs *)

Inductive TokType : Set :=
| T_END_BUF | T_ERROR
| T_PLUS | T_MINUS | T_STAR | T_SLASH | T_PERC | T_CARAT
| T_LT | T_GT | T_LTE | T_GTE | T_EQU | T_NEQU | T_EQUAL
| T_OPAREN | T_CPAREN
| T_NOT | T_AND | T_OR
| T_NUM | T_SYM.

Inductive ValType : Set := V_NUM | V_OP | V_SYM.

Definition addr := positive.

(** [Value*] and [ValueRepo*]: [None] is NULL. *)
Abbreviation pointer := (option positive).
Abbreviation NULL := (@None positive).

(** [Token]: [str] is NULL until the first token has been read. *)
Record Token : Type := mkToken {
  type : TokType;
  str : option (list ascii)
}.

(** [Value].  The field [val] is a double that the source only ever fills
    from the [int] argument of [create_value], so it is kept as an integer. *)
Record Value : Type := mkValue {
  vtype : ValType;
  ttype : TokType;
  val : Z;
  name : list ascii;
  next : pointer
}.

Record ValueRepo : Type := mkRepo {
  head : pointer;
  tail : pointer;
  crnt : pointer
}.

(** The heap: the [Value] cells and the [ValueRepo] cells that [malloc]
    has handed out. *)
Record Mem : Type := mkMem {
  values : gmap positive Value;
  repos : gmap positive ValueRepo
}.

Definition load_value (v : addr) (m : Mem) : outcome Value :=
  match values m !! v with
  | Some V => Ok V
  | None => Fault
  end.

Definition load_repo (r : addr) (m : Mem) : outcome ValueRepo :=
  match repos m !! r with
  | Some R => Ok R
  | None => Fault
  end.

Definition store_value (v : addr) (V : Value) (m : Mem) : Mem :=
  mkMem (<[v := V]> (values m)) (repos m).

Definition store_repo (r : addr) (R : ValueRepo) (m : Mem) : Mem :=
  mkMem (values m) (<[r := R]> (repos m)).

Definition set_next (V : Value) (p : pointer) : Value :=
  mkValue (vtype V) (ttype V) (val V) (name V) p.

Definition set_head (R : ValueRepo) (p : pointer) : ValueRepo :=
  mkRepo p (tail R) (crnt R).

Definition set_tail (R : ValueRepo) (p : pointer) : ValueRepo :=
  mkRepo (head R) p (crnt R).

Definition set_crnt (R : ValueRepo) (p : pointer) : ValueRepo :=
  mkRepo (head R) (tail R) p.

(** ** The value repository *)

(** [create_value]: the cell comes from [malloc] and its [next] field is
    never written, so it holds whatever [malloc] left there: [junk]. *)
Definition create_value (vt : ValType) (tt : TokType) (nm : list ascii) (v : Z)
    (junk : pointer) (m : Mem) : addr * Mem :=
  let a := fresh (dom (values m)) in
  (a, store_value a (mkValue vt tt v nm junk) m).

Definition create_repo (m : Mem) : addr * Mem :=
  let a := fresh (dom (repos m)) in
  (a, store_repo a (mkRepo NULL NULL NULL) m).

(** [push]: [val->next] is written before [val] is compared with NULL. *)
Definition push (ptr val : pointer) (m : Mem) : outcome Mem :=
  match ptr with
  | Some r =>
      do R <~ load_repo r m;
      match val with
      | Some v =>
          do V <~ load_value v m;
          let m1 := store_value v (set_next V (head R)) m in
          Ok (store_repo r (set_head R (Some v)) m1)
      | None => Fault
      end
  | None => Ok m
  end.

Definition pop (ptr : pointer) (m : Mem) : outcome (pointer * Mem) :=
  match ptr with
  | Some r =>
      do R <~ load_repo r m;
      let tmp := head R in
      match head R with
      | Some h =>
          do H <~ load_value h m;
          Ok (tmp, store_repo r (set_head R (next H)) m)
      | None => Ok (NULL, m)
      end
  | None => Ok (NULL, m)
  end.

Definition peek (ptr : pointer) (m : Mem) : outcome pointer :=
  match ptr with
  | Some r => do R <~ load_repo r m; Ok (head R)
  | None => Ok NULL
  end.

(** [append]: the old tail is linked to the new cell and the tail moves;
    the head is not touched, also when the repository is empty. *)
Definition append (ptr val : pointer) (m : Mem) : outcome Mem :=
  match ptr with
  | Some r =>
      do R <~ load_repo r m;
      do m1 <~ match tail R with
               | Some t =>
                   match val with
                   | Some _ =>
                       do T <~ load_value t m;
                       Ok (store_value t (set_next T val) m)
                   | None => Ok m
                   end
               | None => Ok m
               end;
      Ok (store_repo r (set_tail R val) m1)
  | None => Ok m
  end.

Definition reset (ptr : pointer) (m : Mem) : outcome (pointer * Mem) :=
  match ptr with
  | Some r =>
      do R <~ load_repo r m;
      Ok (head R, store_repo r (set_crnt R (head R)) m)
  | None => Ok (NULL, m)
  end.

Definition get (ptr : pointer) (m : Mem) : outcome (pointer * Mem) :=
  match ptr with
  | Some r =>
      do R <~ load_repo r m;
      match crnt R with
      | Some c =>
          do C <~ load_value c m;
          Ok (Some c, store_repo r (set_crnt R (next C)) m)
      | None => Ok (NULL, m)
      end
  | None => Ok (NULL, m)
  end.

(** ** Characters and the input buffer *)

(** [char] is the signed byte of the x86-64 ABI: reading a [char] into an
    [int] sign-extends it, storing an [int] into a [char] keeps the low
    byte. *)
Definition int_of_char (c : ascii) : Z :=
  let n := Z.of_N (N_of_ascii c) in
  if n <? 128 then n else n - 256.

Definition char_of_int (ch : Z) : ascii :=
  ascii_of_N (Z.to_N (ch mod 256)).

(** [isalpha] and [isdigit] of the C locale. *)
Definition isalpha (ch : Z) : bool :=
  ((65 <=? ch) && (ch <=? 90)) || ((97 <=? ch) && (ch <=? 122)).

Definition isdigit (ch : Z) : bool :=
  (48 <=? ch) && (ch <=? 57).

Definition NUL : ascii := zero.

(** [InputBuffer]: [buf] is the text that [load_buf] has stored, so [len]
    is its length; the allocated capacity [cap] plays no part in reading. *)
Record InputBuffer : Type := mkBuf {
  buf : list ascii;
  idx : nat
}.

Definition len (b : InputBuffer) : nat := length (buf b).

Definition reset_buf (b : InputBuffer) : InputBuffer := mkBuf [] 0.

Definition load_buf (s : list ascii) (b : InputBuffer) : InputBuffer :=
  mkBuf (buf b ++ s) (idx b).

Definition read_char (b : InputBuffer) : Z :=
  if (idx b <? len b)%nat then int_of_char (nth (idx b) (buf b) NUL) else -1.

Definition consume_char (b : InputBuffer) : Z * InputBuffer :=
  if (idx b <? len b)%nat
  then (int_of_char (nth (idx b) (buf b) NUL), mkBuf (buf b) (S (idx b)))
  else (-1, b).

(** ** The tokenizer *)

(** The local array [char buf[1024]] of [consume_token], cleared by
    [memset]: only the prefix written so far is kept, the rest is NUL. *)
Definition BUFSZ : nat := 1024.

(** [buf[idx++] = ch] with [idx] the number of bytes written so far. *)
Definition buf_put (acc : list ascii) (ch : Z) : outcome (list ascii) :=
  if (length acc <? BUFSZ)%nat then Ok (acc ++ [char_of_int ch]) else Fault.

Fixpoint cstring (l : list ascii) : list ascii :=
  match l with
  | [] => []
  | c :: l' => if Ascii.eqb c NUL then [] else c :: cstring l'
  end.

(** [strdup(buf)]: the bytes before the first NUL of the array; when all
    1024 bytes are set there is none inside the array. *)
Definition strdup (acc : list ascii) : outcome (list ascii) :=
  if (length (cstring acc) <? BUFSZ)%nat then Ok (cstring acc) else Fault.

Fixpoint read_symbol_loop (fuel : nat) (ch : Z) (acc : list ascii)
    (b : InputBuffer) : outcome (list ascii * InputBuffer) :=
  if isalpha ch || (ch =? 95 (* '_' *)) then
    match fuel with
    | O => Timeout
    | S fuel' =>
        do acc' <~ buf_put acc ch;
        let b' := snd (consume_char b) in
        let ch' := read_char b' in
        if ch' <? 0 then Ok (acc', b')
        else read_symbol_loop fuel' ch' acc' b'
    end
  else Ok (acc, b).

(** [read_symbol] and [read_number] fill the array they are given from
    index 0, over what it holds: [overwrite new old] is the array after
    the call. *)
Definition overwrite (new old : list ascii) : list ascii :=
  new ++ drop (length new) old.

Definition read_symbol (b : InputBuffer) : outcome (list ascii * InputBuffer) :=
  read_symbol_loop (len b - idx b) (read_char b) [] b.

Fixpoint read_number_loop (fuel : nat) (ch : Z) (acc : list ascii)
    (b : InputBuffer) : outcome (list ascii * InputBuffer) :=
  if isdigit ch || (ch =? 46 (* '.' *)) then
    match fuel with
    | O => Timeout
    | S fuel' =>
        do acc' <~ buf_put acc ch;
        let b' := snd (consume_char b) in
        let ch' := read_char b' in
        if ch' <? 0 then Ok (acc', b')
        else read_number_loop fuel' ch' acc' b'
    end
  else Ok (acc, b).

Definition read_number (b : InputBuffer) : outcome (list ascii * InputBuffer) :=
  read_number_loop (len b - idx b) (read_char b) [] b.

(** What the program writes to [stderr]. *)
Inductive diag : Type :=
| Unhandled_character (ch : Z)
| Invalid_float (text : list ascii).

(** The locals of [consume_token] that live across iterations. *)
Record Locals : Type := mkLocals {
  lbuf : list ascii;
  ttype_ : TokType
}.

Definition finish (tt : TokType) (acc : list ascii) (b : InputBuffer)
    (err : list diag) : outcome (Locals * InputBuffer * list diag) :=
  Ok (mkLocals acc tt, b, err).

(** The cases '+', '-', '*', '/', '%', '^', '(' and ')'. *)
Definition single (tt : TokType) (ch : Z) (l : Locals) (b : InputBuffer)
    (err : list diag) : outcome (Locals * InputBuffer * list diag) :=
  do acc <~ buf_put (lbuf l) ch;
  finish tt acc (snd (consume_char b)) err.

(** The cases '<', '>', '=' and '!': one character of lookahead. *)
Definition lookahead (two one : TokType) (ch : Z) (l : Locals) (b : InputBuffer)
    (err : list diag) : outcome (Locals * InputBuffer * list diag) :=
  do acc <~ buf_put (lbuf l) ch;
  let b1 := snd (consume_char b) in
  let ch1 := read_char b1 in
  if ch1 =? 61 (* '=' *) then
    do acc2 <~ buf_put acc ch1;
    finish two acc2 (snd (consume_char b1)) err
  else finish one acc b1 err.

(** The [default] case: the end of the buffer, a symbol, a number, or a
    character that has no case. *)
Definition other (ch : Z) (l : Locals) (b : InputBuffer)
    (err : list diag) : outcome (Locals * InputBuffer * list diag) :=
  if ch =? -1 then
    finish (if (length (lbuf l) =? 0)%nat then T_END_BUF else ttype_ l)
           (lbuf l) b err
  else if isalpha ch || (ch =? 95) then
    do r <~ read_symbol b;
    finish T_SYM (overwrite (fst r) (lbuf l)) (snd r) err
  else if isdigit ch then
    do r <~ read_number b;
    finish T_NUM (overwrite (fst r) (lbuf l)) (snd r) err
  else
    finish T_ERROR (lbuf l) (snd (consume_char b))
           (err ++ [Unhandled_character ch]).

Fixpoint token_loop (fuel : nat) (l : Locals) (b : InputBuffer)
    (err : list diag) : outcome (Locals * InputBuffer * list diag) :=
  match fuel with
  | O => Timeout
  | S fuel' =>
      let ch := read_char b in
      match ch with
      | 32 (* ' ' *) | 9 (* '\t' *) => token_loop fuel' l (snd (consume_char b)) err
      | 43 (* '+' *) => single T_PLUS ch l b err
      | 45 (* '-' *) => single T_MINUS ch l b err
      | 42 (* '*' *) => single T_STAR ch l b err
      | 47 (* '/' *) => single T_SLASH ch l b err
      | 37 (* '%' *) => single T_PERC ch l b err
      | 94 (* '^' *) => single T_CARAT ch l b err
      | 40 (* '(' *) => single T_OPAREN ch l b err
      | 41 (* ')' *) => single T_CPAREN ch l b err
      | 60 (* '<' *) => lookahead T_LTE T_LT ch l b err
      | 62 (* '>' *) => lookahead T_GTE T_GT ch l b err
      | 61 (* '=' *) => lookahead T_EQU T_EQUAL ch l b err
      | 33 (* '!' *) => lookahead T_NEQU T_NOT ch l b err
      | _ => other ch l b err
      end
  end.

(** The globals the tokenizer works on: [buffer], [tok] and the error
    stream. *)
Record Lexer : Type := mkLexer {
  buffer : InputBuffer;
  tok : Token;
  stderr : list diag
}.

Definition consume_token (s : Lexer) : outcome Lexer :=
  do r <~ token_loop (S (len (buffer s) - idx (buffer s)))
                     (mkLocals [] T_END_BUF) (buffer s) (stderr s);
  let '(l, b, err) := r in
  do text <~ strdup (lbuf l);
  Ok (mkLexer b (mkToken (ttype_ l) (Some text)) err).

(** ** Operator precedence *)

Definition precedence (op : TokType) : Z :=
  match op with
  | T_PLUS => 5
  | T_MINUS => 5
  | T_STAR => 6
  | T_SLASH => 6
  | T_PERC => 6
  | T_CARAT => 8
  | T_LT => 4
  | T_GT => 4
  | T_LTE => 4
  | T_GTE => 4
  | T_EQU => 3
  | T_NEQU => 3
  | T_EQUAL => 0
  | T_OPAREN => 0
  | T_CPAREN => 0
  | T_NOT => 7
  | T_AND => 2
  | T_OR => 1
  | T_NUM => 10
  | T_SYM => 10
  | _ => -1
  end.

(** ** Parsing a numeric text *)

Section StrToNum.

(** [strtod] belongs to the C library and [double] to the machine: both
    are parameters.  [strtod s] gives the value of the longest prefix of
    [s] that is a number and the rest of [s], where the end pointer [tmp]
    is left. *)
Variable double : Type.
Variable double_of_int : Z -> double.
Variable strtod : list ascii -> double * list ascii.

(** [*tmp] is the first byte of the rest, the terminating NUL when the
    rest is empty. *)
Definition str_to_num (s : list ascii) (err : list diag) : double * list diag :=
  let num := fst (strtod s) in
  let tmp := snd (strtod s) in
  if Ascii.eqb (hd NUL tmp) NUL then (num, err)
  else (double_of_int 0, err ++ [Invalid_float s]).

End StrToNum.

(** ** The two entry points *)

(** The whole program state: the tokenizer globals, the heap, the
    [verbo_flag] switch and what [print_token] has written. *)
Record Calc : Type := mkCalc {
  lexer : Lexer;
  mem : Mem;
  verbo_flag : bool;
  stdout : list Token
}.

Definition print_token (c : Calc) : Calc :=
  mkCalc (lexer c) (mem c) (verbo_flag c) (stdout c ++ [tok (lexer c)]).

Section Convert.

(** In the source the call [create_value()] is written without its four
    arguments and is preceded by an empty [switch]: what would be passed
    for a token is a parameter, and so is what [malloc] leaves in the
    [next] field of a new cell. *)
Variable value_args : Token -> ValType * TokType * list ascii * Z.
Variable junk : addr -> pointer.

Definition value_of_token (t : Token) (m : Mem) : addr * Mem :=
  let a := value_args t in
  create_value (fst (fst (fst a))) (snd (fst (fst a))) (snd (fst a)) (snd a)
    (junk (fresh (dom (values m)))) m.

Fixpoint convert_loop (fuel : nat) (repo : pointer) (c : Calc) : outcome Calc :=
  match fuel with
  | O => Timeout
  | S fuel' =>
      do lx <~ consume_token (lexer c);
      let c1 := mkCalc lx (mem c) (verbo_flag c) (stdout c) in
      let c2 := if verbo_flag c1 then print_token c1 else c1 in
      match type (tok (lexer c2)) with
      | T_END_BUF => Ok c2
      | _ =>
          let vm := value_of_token (tok (lexer c2)) (mem c2) in
          do m2 <~ append repo (Some (fst vm)) (snd vm);
          convert_loop fuel' repo (mkCalc (lexer c2) m2 (verbo_flag c2) (stdout c2))
      end
  end.

(** [convert] ends without a [return]: the caller is handed no pointer.
    The address of the local [repo] is given next to the final state so
    that the repository can be inspected. *)
Definition convert (c : Calc) : outcome (addr * Calc) :=
  let r := fst (create_repo (mem c)) in
  let m0 := snd (create_repo (mem c)) in
  let budget := S (len (buffer (lexer c)) - idx (buffer (lexer c))) in
  do c' <~ convert_loop budget (Some r) (mkCalc (lexer c) m0 (verbo_flag c) (stdout c));
  Ok (r, c').

End Convert.

(** [solve] has an empty body: nothing is read, nothing is written and no
    value is returned ([None]). *)
Definition solve (expr : pointer) (c : Calc) : outcome (option Z * Calc) :=
  Ok (None, c).

(** The cells a reader of the queue obtains: [reset], then [get] until it
    answers NULL. *)
Fixpoint get_all (fuel : nat) (ptr : pointer) (m : Mem) : outcome (list addr) :=
  match fuel with
  | O => Timeout
  | S fuel' =>
      do r <~ get ptr m;
      match fst r with
      | Some a => do rest <~ get_all fuel' ptr (snd r); Ok (a :: rest)
      | None => Ok []
      end
  end.

Definition queue_cells (fuel : nat) (ptr : pointer) (m : Mem) : outcome (list addr) :=
  do r <~ reset ptr m;
  get_all fuel ptr (snd r).

(** ** Test inputs *)

Definition text (s : string) : list ascii := list_ascii_of_string s.

(** The state of [main] after [reset_buf(); load_buf(line)]. *)
Definition start (line : string) : Lexer :=
  mkLexer (load_buf (text line) (reset_buf (mkBuf [] 0))) (mkToken T_END_BUF None) [].

Definition empty_mem : Mem := mkMem ∅ ∅.

Definition boot (verbose : bool) (line : string) : Calc :=
  mkCalc (start line) empty_mem verbose [].

(** The operator table of the specification: token type and level.  The
    token set has one unary operator type, [T_NOT], which the source marks
    as standing for unary minus too. *)
Definition operator_table : list (TokType * Z) :=
  [ (T_OR, 1); (T_AND, 2);
    (T_EQU, 3); (T_NEQU, 3);
    (T_LT, 4); (T_GT, 4); (T_LTE, 4); (T_GTE, 4);
    (T_PLUS, 5); (T_MINUS, 5);
    (T_STAR, 6); (T_SLASH, 6); (T_PERC, 6);
    (T_NOT, 7);
    (T_CARAT, 8);
    (T_EQUAL, 0) ].

(** A repository cell with nothing in it, alone on the heap. *)
Definition lone_repo : Mem := mkMem ∅ {[ 1%positive := mkRepo NULL NULL NULL ]}.

(** One repository and one value cell. *)
Definition repo_and_cell : Mem :=
  mkMem {[ 7%positive := mkValue V_NUM T_NUM 3 (text "3") NULL ]}
        {[ 1%positive := mkRepo NULL NULL NULL ]}.

(** The four operators that need a second look: the token for the
    character followed by '=' and the token for the character alone. *)
Definition lookahead_pair (c : ascii) : option (TokType * TokType) :=
  if Ascii.eqb c "<" then Some (T_LTE, T_LT)
  else if Ascii.eqb c ">" then Some (T_GTE, T_GT)
  else if Ascii.eqb c "=" then Some (T_EQU, T_EQUAL)
  else if Ascii.eqb c "!" then Some (T_NEQU, T_NOT)
  else None.

(** The characters the tokenizer has a case for. *)
Definition is_blank (c : ascii) : bool :=
  Ascii.eqb c " " || Ascii.eqb c (ascii_of_nat 9).

Definition is_operator_char (c : ascii) : bool :=
  existsb (Ascii.eqb c) (list_ascii_of_string "+-*/%^()<>=!").

Definition unrecognised (c : ascii) : bool :=
  negb (is_blank c || is_operator_char c || isalpha (int_of_char c)
        || Ascii.eqb c "_" || isdigit (int_of_char c)).

(** The reading of the specification: the error token holds the
    character that caused it. *)
Definition error_token_carries_character : Prop :=
  forall (s : Lexer) (c : ascii),
    buf (buffer s) !! idx (buffer s) = Some c ->
    unrecognised c = true ->
    exists s' t,
      consume_token s = Ok s' /\ type (tok s') = T_ERROR /\
      str (tok s') = Some t /\ In c t.

(** What a caller can see of a tokenizer run: the token and the cursor. *)
Definition observe (r : outcome Lexer) : outcome (Token * nat) :=
  omap (fun s => (tok s, idx (buffer s))) r.

(** Put the cursor back to [i], keeping everything else. *)
Definition rewind (i : nat) (s : Lexer) : Lexer :=
  mkLexer (mkBuf (buf (buffer s)) i) (tok s) (stderr s).

(** The characters [read_number] keeps reading: the test of its loop. *)
Definition numeric_char (c : ascii) : bool :=
  isdigit (int_of_char c) || (int_of_char c =? 46).

Definition points (t : list ascii) : nat :=
  length (filter (fun c => c = "."%char) t).

(** The reading of the specification: a numeric token holds at most one
    decimal point. *)
Definition number_has_one_point : Prop :=
  forall (s s' : Lexer) (d : ascii) (t : list ascii),
    buf (buffer s) !! idx (buffer s) = Some d ->
    isdigit (int_of_char d) = true ->
    consume_token s = Ok s' ->
    str (tok s') = Some t ->
    (points t <= 1)%nat.

(** The [case] labels of the tokenizer's [switch]. *)
Definition case_labels : list Z :=
  [32; 9; 43; 45; 42; 47; 37; 94; 40; 41; 60; 62; 61; 33].

Definition has_case (ch : Z) : bool := existsb (Z.eqb ch) case_labels.

(** [strtod] on the texts [read_number] accumulates, digits and points
    after a leading digit, in the C locale: the number is the longest
    prefix made of digits, then at most one point followed by digits, and
    the end pointer is left on what follows, a second point if there is
    one.  The value is the exact decimal, as numerator and power-of-ten
    denominator. *)
Fixpoint leading_digits (s : list ascii) : list ascii * list ascii :=
  match s with
  | c :: s' =>
      if isdigit (int_of_char c)
      then (c :: fst (leading_digits s'), snd (leading_digits s'))
      else ([], s)
  | [] => ([], [])
  end.

Definition digits_value (ds : list ascii) : Z :=
  fold_left (fun n c => 10 * n + (int_of_char c - 48)) ds 0.

Definition strtod_decimal (s : list ascii) : (Z * Z) * list ascii :=
  let ip := fst (leading_digits s) in
  let r1 := snd (leading_digits s) in
  match ip, r1 with
  | [], _ => ((0, 1), s)
  | _, c :: r2 =>
      if Ascii.eqb c "."
      then let fp := fst (leading_digits r2) in
           ((digits_value (ip ++ fp), 10 ^ Z.of_nat (length fp)),
            snd (leading_digits r2))
      else ((digits_value ip, 1), r1)
  | _, [] => ((digits_value ip, 1), [])
  end.

(** The texts a [T_NUM] token can hold: a digit, then digits and points. *)
Definition numeric_text (t : list ascii) : bool :=
  match t with
  | d :: r => isdigit (int_of_char d) && forallb numeric_char r
  | [] => false
  end.

(** Where [strtod] leaves its end pointer on such a text. *)
Definition numeric_rest (t : list ascii) : list ascii := snd (strtod_decimal t).

(** What is assumed of the C library's [strtod]: on a text of digits and
    points that starts with a digit, its end pointer is where the
    standard puts it.  Its value is left open. *)
Definition C_strtod {double : Type} (strtod : list ascii -> double * list ascii) : Prop :=
  forall t, numeric_text t = true -> snd (strtod t) = numeric_rest t.

(** The reading of the specification: the tokenizer parses the text of a
    number, that is, reading a number has run [str_to_num] on its text, so
    that the error stream holds what [str_to_num] writes for that text. *)
Definition number_text_is_parsed : Prop :=
  forall (double : Type) (double_of_int : Z -> double)
         (strtod : list ascii -> double * list ascii),
    C_strtod strtod ->
    forall (s s' : Lexer) (d : ascii) (t : list ascii),
      buf (buffer s) !! idx (buffer s) = Some d ->
      isdigit (int_of_char d) = true ->
      consume_token s = Ok s' ->
      str (tok s') = Some t ->
      stderr s' = snd (str_to_num double double_of_int strtod t (stderr s)).


(** The tokens of the line "3 + 4 * 2", in reading order. *)
Definition infix_tokens : list Token :=
  [ mkToken T_NUM (Some (text "3")); mkToken T_PLUS (Some (text "+"));
    mkToken T_NUM (Some (text "4")); mkToken T_STAR (Some (text "*"));
    mkToken T_NUM (Some (text "2")); mkToken T_END_BUF (Some []) ].

(** ** The rest of the program *)

(** [tokToStr]: the name of a token type in messages. *)
Definition tokToStr (t : TokType) : string :=
  match t with
  | T_END_BUF => "END_BUF"
  | T_ERROR => "ERROR"
  | T_PLUS => "PLUS"
  | T_MINUS => "MINUS"
  | T_STAR => "STAR"
  | T_SLASH => "SLASH"
  | T_PERC => "PERC"
  | T_CARAT => "CARAT"
  | T_LT => "LT"
  | T_GT => "GT"
  | T_LTE => "LTE"
  | T_GTE => "GTE"
  | T_EQU => "EQU"
  | T_OPAREN => "OPAREN"
  | T_CPAREN => "CPAREN"
  | T_NEQU => "NEQU"
  | T_EQUAL => "EQUAL"
  | T_NOT => "NOT"
  | T_AND => "AND"
  | T_OR => "OR"
  | T_NUM => "NUM"
  | T_SYM => "SYM"
  end.

(** What [show_vars] and [print_var] write, line by line. *)
Inductive printed : Type :=
| All_variables
| Symbol_line (nm : list ascii) (v : Z)
| Number_line (v : Z)
| Oper_line (nm : string)
| List_is_empty
| Blank_line.

(** [print_var]: the [default] branch of its [switch] (an invalid [vtype],
    then [exit(1)]) has no value of [ValType] to take it. *)
Definition print_var (V : Value) : printed :=
  match vtype V with
  | V_SYM => Symbol_line (name V) (val V)
  | V_NUM => Number_line (val V)
  | V_OP => Oper_line (tokToStr (ttype V))
  end.

(** The [while(val != NULL)] loop of [show_vars]. *)
Fixpoint show_vars_loop (fuel : nat) (val : pointer) (m : Mem) : outcome (list printed) :=
  match fuel with
  | O => Timeout
  | S fuel' =>
      match val with
      | Some a =>
          do V <~ load_value a m;
          do rest <~ show_vars_loop fuel' (next V) m;
          Ok (print_var V :: rest)
      | None => Ok []
      end
  end.

Definition show_vars (fuel : nat) (repo : pointer) (m : Mem) : outcome (list printed) :=
  do body <~ match repo with
             | Some r => do R <~ load_repo r m; show_vars_loop fuel (head R) m
             | None => Ok [List_is_empty]
             end;
  Ok (All_variables :: body ++ [Blank_line]).

(** [chain m p l]: following [next] from [p] visits the cells [l], in that
    order, and then reaches NULL. *)
Fixpoint chain (m : Mem) (p : pointer) (l : list addr) : Prop :=
  match l with
  | [] => p = NULL
  | a :: l' => p = Some a /\ exists V, values m !! a = Some V /\ chain m (next V) l'
  end.

(** The lines [show_vars] prints for the cells [l]. *)
Definition lines_of (m : Mem) (l : list addr) : list printed :=
  flat_map (fun a => match values m !! a with
                      | Some V => [print_var V]
                      | None => []
                      end) l.

(** [n] calls of [pop] in a row: what they return and the heap after. *)
Fixpoint pop_n (n : nat) (ptr : pointer) (m : Mem) : outcome (list pointer * Mem) :=
  match n with
  | O => Ok ([], m)
  | S n' =>
      do r <~ pop ptr m;
      do rest <~ pop_n n' ptr (snd r);
      Ok (fst r :: fst rest, snd rest)
  end.

(** A run of [append] calls, one per value. *)
Fixpoint append_all (ptr : pointer) (vals : list pointer) (m : Mem) : outcome Mem :=
  match vals with
  | [] => Ok m
  | v :: vals' => do m1 <~ append ptr v m; append_all ptr vals' m1
  end.

(** Reading the queue, with the heap the reading leaves: [reset], then
    [get] until it answers NULL. *)
Fixpoint get_all_heap (fuel : nat) (ptr : pointer) (m : Mem) : outcome (list addr * Mem) :=
  match fuel with
  | O => Timeout
  | S fuel' =>
      do r <~ get ptr m;
      match fst r with
      | Some a => do rest <~ get_all_heap fuel' ptr (snd r); Ok (a :: fst rest, snd rest)
      | None => Ok ([], snd r)
      end
  end.

Definition queue_read (fuel : nat) (ptr : pointer) (m : Mem) : outcome (list addr * Mem) :=
  do r <~ reset ptr m;
  get_all_heap fuel ptr (snd r).

(** A repository whose stack holds the cells 7 and 8, and a free cell 9. *)
Definition two_cell_stack : Mem :=
  mkMem {[ 7%positive := mkValue V_NUM T_NUM 3 (text "3") (Some 8%positive);
           8%positive := mkValue V_OP T_PLUS 0 (text "+") NULL;
           9%positive := mkValue V_SYM T_SYM 0 (text "x") NULL ]}
        {[ 1%positive := mkRepo (Some 7%positive) NULL NULL ]}.

(** The characters [read_symbol] keeps reading: the test of its loop. *)
Definition symbol_char (c : ascii) : bool :=
  isalpha (int_of_char c) || (int_of_char c =? 95).

(** The operators made of one character, with their token types. *)
Definition single_operator (c : ascii) : option TokType :=
  if Ascii.eqb c "+" then Some T_PLUS
  else if Ascii.eqb c "-" then Some T_MINUS
  else if Ascii.eqb c "*" then Some T_STAR
  else if Ascii.eqb c "/" then Some T_SLASH
  else if Ascii.eqb c "%" then Some T_PERC
  else if Ascii.eqb c "^" then Some T_CARAT
  else if Ascii.eqb c "(" then Some T_OPAREN
  else if Ascii.eqb c ")" then Some T_CPAREN
  else None.

(** A line of 1024 digits. *)
Definition long_number : list ascii := replicate 1024 "7"%char.


(** ** The command loop *)

(** What [main] does with one line that [readline] has returned. *)
Inductive Command : Type :=
| Help            (* show_help() *)
| Quit            (* finished = true *)
| Vars            (* show_vars(values) *)
| Rpn             (* rpn_flag toggled *)
| Solve           (* solve_flag toggled *)
| Verbo           (* verbo_flag toggled *)
| Print           (* parse_var, get_var *)
| Unknown_command (* "unknown command", then show_help() *)
| Expression (history : bool)  (* reset_buf, load_buf, convert, solve *)
| No_line.        (* readline gave NULL: load_buf(NULL) *)

(** [!strcmp(a, b)]. *)
Definition same_text (a b : list ascii) : bool :=
  if decide (a = b) then true else false.

(** The commands that start with '.' or '/': [line[1]] is the byte after
    the first (the terminating NUL for a one-character line) and
    [&line[1]] the text from there on. *)
Definition dot_command (line : list ascii) : Command :=
  let c1 := nth 1 line NUL in
  let rest := drop 1 line in
  if same_text rest (text "quit") then Quit
  else if Ascii.eqb c1 "h" || same_text rest (text "help") then Help
  else if Ascii.eqb c1 "a" || same_text rest (text "vars") then Vars
  else if Ascii.eqb c1 "r" || same_text rest (text "rpn") then Rpn
  else if Ascii.eqb c1 "s" || same_text rest (text "solve") then Solve
  else if Ascii.eqb c1 "v" || same_text rest (text "verbo") then Verbo
  else if Ascii.eqb c1 "p" || same_text rest (text "print") then Print
  else Unknown_command.

Definition command_of (line : option (list ascii)) : Command :=
  match line with
  | Some ((c0 :: _) as l) =>
      if Ascii.eqb c0 "?" then Help
      else if same_text l (text "q") then Quit
      else if Ascii.eqb c0 "." || Ascii.eqb c0 "/" then dot_command l
      else Expression true
  | Some [] => Expression false
  | None => No_line
  end.

(** The command a letter after the dot selects. *)
Definition letter_command (c : ascii) : Command :=
  if Ascii.eqb c "h" then Help
  else if Ascii.eqb c "a" then Vars
  else if Ascii.eqb c "r" then Rpn
  else if Ascii.eqb c "s" then Solve
  else if Ascii.eqb c "v" then Verbo
  else if Ascii.eqb c "p" then Print
  else Unknown_command.

(** ** The capacity of the input buffer *)

Definition INT_MAX : Z := 2147483647.

(** [create_buf]: the first allocation, [1 << 3] bytes. *)
Definition create_buf_cap : Z := 8.

(** [while(buffer->len+len+1 > buffer->cap) buffer->cap <<= 1;] with
    [need] the left-hand side.  Doubling an [int] past [INT_MAX] is not
    defined. *)
Fixpoint grow_cap (fuel : nat) (cap need : Z) : outcome Z :=
  if need >? cap then
    match fuel with
    | O => Timeout
    | S fuel' =>
        if 2 * cap >? INT_MAX then Fault else grow_cap fuel' (2 * cap) need
    end
  else Ok cap.

(** The capacity side of [load_buf]: the capacity after a string of
    [slen] bytes has been added to the [len] bytes in the buffer (the
    text side is [load_buf] above). *)
Definition load_buf_cap (cap : Z) (len slen : nat) : outcome Z :=
  let need := Z.of_nat len + Z.of_nat slen + 1 in
  if need >? INT_MAX then Fault else grow_cap 31 cap need.

(** * Properties *)

(** ** The value repository *)

Lemma repo_eta (R : ValueRepo) : mkRepo (head R) (tail R) (crnt R) = R.
Proof. by destruct R. Qed.

Lemma load_repo_Some m r R : repos m !! r = Some R -> load_repo r m = Ok R.
Proof. unfold load_repo. by intros ->. Qed.

Lemma load_value_Some m v V : values m !! v = Some V -> load_value v m = Ok V.
Proof. unfold load_value. by intros ->. Qed.

(** C9: [pop], [peek] and [get] answer NULL on a NULL repository pointer
    and on a repository whose head (for [get]: whose current pointer) is
    NULL; they return normally, and [pop] (as well as [get]) leaves the
    whole heap, hence the repository, as it was. *)
Theorem empty_repository_reads (m : Mem) :
  (pop NULL m = Ok (NULL, m) /\ peek NULL m = Ok NULL /\ get NULL m = Ok (NULL, m)) /\
  (forall (r : addr) (R : ValueRepo),
     repos m !! r = Some R -> head R = NULL ->
     pop (Some r) m = Ok (NULL, m) /\ peek (Some r) m = Ok NULL) /\
  (forall (r : addr) (R : ValueRepo),
     repos m !! r = Some R -> crnt R = NULL ->
     get (Some r) m = Ok (NULL, m)).
Proof.
  split; [done|]. split.
  - intros r R HR Hh. unfold pop, peek. rewrite (load_repo_Some _ _ _ HR). simpl.
    by rewrite Hh.
  - intros r R HR Hc. unfold get. rewrite (load_repo_Some _ _ _ HR). simpl.
    by rewrite Hc.
Qed.

Lemma empty_repository_reads_witness :
  pop (Some 1%positive) lone_repo = Ok (NULL, lone_repo) /\
  peek (Some 1%positive) lone_repo = Ok NULL /\
  get (Some 1%positive) lone_repo = Ok (NULL, lone_repo).
Proof.
  destruct (empty_repository_reads lone_repo) as (_ & Hh & Hc).
  destruct (Hh 1%positive (mkRepo NULL NULL NULL) eq_refl eq_refl) as [Hpop Hpeek].
  exact (conj Hpop (conj Hpeek (Hc 1%positive (mkRepo NULL NULL NULL) eq_refl eq_refl))).
Defined.

(** C10: on a repository [r] and a value cell [v] that are both there,
    [push] returns, the [pop] that follows returns exactly [v], and the
    repository is back to what it was: same head (and same tail and
    current pointer). *)
Theorem push_pop_roundtrip (m : Mem) (r v : addr) (R : ValueRepo) (V : Value) :
  repos m !! r = Some R ->
  values m !! v = Some V ->
  exists m1 m2,
    push (Some r) (Some v) m = Ok m1 /\
    pop (Some r) m1 = Ok (Some v, m2) /\
    repos m2 !! r = Some R /\
    repos m2 = repos m.
Proof.
  intros HR HV.
  exists (store_repo r (set_head R (Some v)) (store_value v (set_next V (head R)) m)).
  eexists. split.
  - unfold push. by rewrite (load_repo_Some _ _ _ HR), (load_value_Some _ _ _ HV).
  - unfold pop, load_repo, load_value. simpl.
    rewrite !lookup_insert_eq. simpl. rewrite lookup_insert_eq. simpl.
    split; [reflexivity|]. simpl.
    rewrite insert_insert_eq. unfold set_head. simpl. rewrite repo_eta.
    split; [apply lookup_insert_eq | by apply insert_id].
Qed.

Lemma push_pop_roundtrip_witness :
  exists m1 m2,
    push (Some 1%positive) (Some 7%positive) repo_and_cell = Ok m1 /\
    pop (Some 1%positive) m1 = Ok (Some 7%positive, m2) /\
    repos m2 !! 1%positive = Some (mkRepo NULL NULL NULL) /\
    repos m2 = repos repo_and_cell.
Proof.
  apply (push_pop_roundtrip repo_and_cell 1%positive 7%positive
           (mkRepo NULL NULL NULL) (mkValue V_NUM T_NUM 3 (text "3") NULL));
    reflexivity.
Defined.

(** ** Precedence *)

(** C2: [precedence] gives every operator of the table its level, from
    [or] at 1 up to [^] at 8, with [=] at 0 strictly below every other
    operator of the table. *)
Theorem precedence_matches_table :
  Forall (fun e => precedence (fst e) = snd e) operator_table /\
  Forall (fun e => fst e = T_EQUAL \/ precedence T_EQUAL < precedence (fst e))
         operator_table /\
  precedence T_EQUAL = 0.
Proof.
  split; [|split].
  - unfold operator_table. repeat (apply List.Forall_cons; [reflexivity|]).
    apply List.Forall_nil.
  - unfold operator_table.
    repeat (apply List.Forall_cons; [first [by left | right; reflexivity]|]).
    apply List.Forall_nil.
  - reflexivity.
Qed.

(** ** The tokenizer *)

Lemma read_char_at (b : InputBuffer) (c : ascii) :
  buf b !! idx b = Some c -> read_char b = int_of_char c.
Proof.
  intros H. unfold read_char, len.
  pose proof (lookup_lt_Some _ _ _ H) as Hlt.
  destruct (Nat.ltb_spec (idx b) (length (buf b))) as [_|Hge]; [|lia].
  by rewrite (nth_lookup_Some _ _ NUL _ H).
Qed.

Lemma read_char_end (b : InputBuffer) :
  buf b !! idx b = None -> read_char b = -1.
Proof.
  intros H. unfold read_char, len.
  apply lookup_ge_None in H.
  destruct (Nat.ltb_spec (idx b) (length (buf b))) as [Hlt|_]; [lia|done].
Qed.

Lemma consume_char_at (b : InputBuffer) (c : ascii) :
  buf b !! idx b = Some c ->
  consume_char b = (int_of_char c, mkBuf (buf b) (S (idx b))).
Proof.
  intros H. unfold consume_char, len.
  pose proof (lookup_lt_Some _ _ _ H) as Hlt.
  destruct (Nat.ltb_spec (idx b) (length (buf b))) as [_|Hge]; [|lia].
  by rewrite (nth_lookup_Some _ _ NUL _ H).
Qed.

Lemma char_roundtrip (c : ascii) : char_of_int (int_of_char c) = c.
Proof. by destruct c as [[] [] [] [] [] [] [] []]. Qed.

Lemma int_of_char_inj (c d : ascii) : int_of_char c = int_of_char d -> c = d.
Proof. intros H. by rewrite <- (char_roundtrip c), H, char_roundtrip. Qed.

(** The numbers in the tokenizer are the character constants of the
    source. *)
Lemma character_constants :
  map int_of_char (text " +-*/%^()<>=!_.") =
    [32; 43; 45; 42; 47; 37; 94; 40; 41; 60; 62; 61; 33; 95; 46] /\
  int_of_char (ascii_of_nat 9) = 9 /\
  map int_of_char (text "09AZaz") = [48; 57; 65; 90; 97; 122].
Proof. by repeat split. Qed.

Lemma eq_char_61 (d : ascii) : d <> "="%char -> (int_of_char d =? 61) = false.
Proof.
  intros Hd. apply Z.eqb_neq. intros H. apply Hd.
  by apply int_of_char_inj.
Qed.

(** C3: with the cursor on one of '<', '>', '=', '!', the tokenizer looks
    at the character after it: when that is '=', the token is the
    two-character one (LTE, GTE, EQU, NEQU) and the cursor moves by two;
    otherwise (any other character, or the end of the buffer) the token is
    the one-character one (LT, GT, EQUAL, NOT) and the cursor moves by
    one.  The token text is exactly the characters consumed. *)
Theorem lookahead_operator_tokens (s : Lexer) (c : ascii) (two one : TokType) :
  buf (buffer s) !! idx (buffer s) = Some c ->
  lookahead_pair c = Some (two, one) ->
  consume_token s =
    Ok (if decide (buf (buffer s) !! S (idx (buffer s)) = Some "="%char)
        then mkLexer (mkBuf (buf (buffer s)) (idx (buffer s) + 2))
                     (mkToken two (Some [c; "="%char])) (stderr s)
        else mkLexer (mkBuf (buf (buffer s)) (idx (buffer s) + 1))
                     (mkToken one (Some [c])) (stderr s)).
Proof.
  destruct s as [[bf ix] tk er]. simpl. intros Hc Hpair.
  unfold consume_token. simpl.
  rewrite (read_char_at (mkBuf bf ix) c Hc).
  assert (Hcases : c = "<"%char \/ c = ">"%char \/ c = "="%char \/ c = "!"%char).
  { unfold lookahead_pair in Hpair.
    repeat match type of Hpair with
           | context [Ascii.eqb ?x ?y] =>
               destruct (Ascii.eqb_spec x y); [subst; tauto|]
           end.
    discriminate. }
  assert (Hnext : read_char (mkBuf bf (S ix)) = 61 <-> bf !! S ix = Some "="%char).
  { destruct (bf !! S ix) as [d|] eqn:Hd.
    - rewrite (read_char_at (mkBuf bf (S ix)) d Hd). split.
      + intros H. f_equal. by apply int_of_char_inj.
      + by intros [= ->].
    - rewrite (read_char_end (mkBuf bf (S ix))) by done. split; discriminate. }
  destruct Hcases as [-> | [-> | [-> | ->]]]; injection Hpair as <- <-;
    simpl; unfold lookahead; simpl;
    rewrite (consume_char_at (mkBuf bf ix) _ Hc); simpl;
    (case_decide as Heq;
     [ rewrite (proj2 Hnext Heq); simpl;
       rewrite (consume_char_at (mkBuf bf (S ix)) _ Heq); simpl;
       replace (ix + 2)%nat with (S (S ix)) by lia; reflexivity
     | destruct (Z.eqb_spec (read_char (mkBuf bf (S ix))) 61) as [H61|_];
       [ by apply Hnext in H61
       | simpl; replace (ix + 1)%nat with (S ix) by lia; reflexivity ] ]).
Qed.

Lemma lookahead_operator_tokens_witness :
  consume_token (start "<= 3") =
    Ok (mkLexer (mkBuf (text "<= 3") 2) (mkToken T_LTE (Some (text "<="))) []) /\
  consume_token (start "!x") =
    Ok (mkLexer (mkBuf (text "!x") 1) (mkToken T_NOT (Some (text "!"))) []).
Proof.
  split.
  - exact (lookahead_operator_tokens (start "<= 3") "<"%char T_LTE T_LT eq_refl eq_refl).
  - exact (lookahead_operator_tokens (start "!x") "!"%char T_NEQU T_NOT eq_refl eq_refl).
Defined.

(** Outside the [case] labels the [switch] takes its [default]. *)
Lemma token_loop_other (fuel : nat) (l : Locals) (b : InputBuffer) (e : list diag) :
  has_case (read_char b) = false ->
  token_loop (S fuel) l b e = other (read_char b) l b e.
Proof.
  cbn [token_loop]. generalize (read_char b) as ch. intros ch Hcase.
  repeat case_match; subst; first [reflexivity | by vm_compute in Hcase].
Qed.

Lemma unrecognised_spec (c : ascii) :
  unrecognised c = true ->
  has_case (int_of_char c) = false /\
  isalpha (int_of_char c) || (int_of_char c =? 95) = false /\
  isdigit (int_of_char c) = false.
Proof.
  destruct c as [[] [] [] [] [] [] [] []]; vm_compute; intros H;
    first [discriminate H | by repeat split].
Qed.

Lemma isdigit_spec (ch : Z) :
  isdigit ch = true ->
  has_case ch = false /\ (ch =? -1) = false /\ isalpha ch || (ch =? 95) = false.
Proof.
  unfold isdigit. intros H. apply andb_true_iff in H as [Hlo Hhi].
  apply Z.leb_le in Hlo, Hhi.
  assert (Hch : ch = 48 \/ ch = 49 \/ ch = 50 \/ ch = 51 \/ ch = 52 \/
                ch = 53 \/ ch = 54 \/ ch = 55 \/ ch = 56 \/ ch = 57) by lia.
  repeat destruct Hch as [->|Hch]; try subst ch; by vm_compute.
Qed.

(** The byte 0xFF reads as -1, the value [read_char] gives at the end of the
    buffer: the tokenizer answers [T_END_BUF] and leaves the cursor on it. *)
Example byte_255_reads_as_end :
  consume_token (mkLexer (mkBuf [ascii_of_nat 255; "1"%char] 0) (mkToken T_END_BUF None) []) =
    Ok (mkLexer (mkBuf [ascii_of_nat 255; "1"%char] 0) (mkToken T_END_BUF (Some [])) []).
Proof. reflexivity. Qed.

(** C6, as the specification has it, fails: '@' has no case, and the
    error token the tokenizer gives for it has an empty text; the character
    is found in the message on the error stream only. *)
Lemma error_token_text_is_empty :
  unrecognised "@" = true /\
  consume_token (start "@") =
    Ok (mkLexer (mkBuf (text "@") 1) (mkToken T_ERROR (Some []))
                [Unhandled_character (int_of_char "@")]) /\
  ~ error_token_carries_character.
Proof.
  split; [reflexivity|]. split; [reflexivity|].
  intros H.
  destruct (H (start "@") "@"%char eq_refl eq_refl) as (s' & t & Hrun & _ & Hstr & Hin).
  vm_compute in Hrun. injection Hrun as <-. simpl in Hstr.
  injection Hstr as <-. destruct Hin.
Qed.

(** C6, amended: a character the tokenizer has no case for (and that does
    not read as -1, the end-of-buffer value) gives a [T_ERROR] token with
    an empty text; the character is consumed and named only in the
    message on the error stream; the call returns, so the caller decides
    what to do next. *)
Theorem unrecognised_character_token (s : Lexer) (c : ascii) :
  buf (buffer s) !! idx (buffer s) = Some c ->
  unrecognised c = true ->
  int_of_char c <> -1 ->
  consume_token s =
    Ok (mkLexer (mkBuf (buf (buffer s)) (S (idx (buffer s))))
                (mkToken T_ERROR (Some []))
                (stderr s ++ [Unhandled_character (int_of_char c)])).
Proof.
  destruct s as [b tk er]. cbn [buffer stderr]. intros Hc Hun Hne.
  destruct (unrecognised_spec c Hun) as (Hcase & Hsym & Hdig).
  unfold consume_token. cbn [buffer stderr].
  rewrite token_loop_other by (by rewrite (read_char_at b c Hc)).
  rewrite (read_char_at b c Hc). unfold other.
  destruct (Z.eqb_spec (int_of_char c) (-1)) as [|_]; [done|].
  rewrite Hsym, Hdig, (consume_char_at b c Hc). reflexivity.
Qed.

Lemma unrecognised_character_token_witness :
  consume_token (start "@ 1") =
    Ok (mkLexer (mkBuf (text "@ 1") 1) (mkToken T_ERROR (Some []))
                [Unhandled_character 64]).
Proof.
  refine (unrecognised_character_token (start "@ 1") "@"%char eq_refl eq_refl _).
  vm_compute. discriminate.
Defined.

Lemma buf_consume_char (b : InputBuffer) : buf (snd (consume_char b)) = buf b.
Proof. unfold consume_char. by destruct (idx b <? len b)%nat. Qed.

Lemma token_loop_stderr (fuel : nat) (l : Locals) (b : InputBuffer) (e : list diag) :
  token_loop fuel l b e =
  omap (fun r => (fst r, e ++ snd r)) (token_loop fuel l b []).
Proof.
  revert l b. induction fuel as [|fuel IH]; intros l b; [done|].
  simpl.
  repeat case_match; try apply IH;
    unfold single, lookahead, other, finish, omap, obind; simpl;
    repeat (case_match; simplify_eq/=); rewrite ?app_nil_r; try done.
Qed.

Lemma read_symbol_loop_buf (fuel : nat) (ch : Z) (acc : list ascii) (b : InputBuffer) r :
  read_symbol_loop fuel ch acc b = Ok r -> buf (snd r) = buf b.
Proof.
  revert ch acc b. induction fuel as [|fuel IH]; intros ch acc b; simpl.
  - destruct (isalpha ch || (ch =? 95)); [done|]. by intros [= <-].
  - destruct (isalpha ch || (ch =? 95)); [|by intros [= <-]].
    destruct (buf_put acc ch) as [acc'| |]; simpl; [|done..].
    destruct (read_char _ <? 0).
    + intros [= <-]. apply buf_consume_char.
    + intros H. apply IH in H. by rewrite H, buf_consume_char.
Qed.

Lemma read_number_loop_buf (fuel : nat) (ch : Z) (acc : list ascii) (b : InputBuffer) r :
  read_number_loop fuel ch acc b = Ok r -> buf (snd r) = buf b.
Proof.
  revert ch acc b. induction fuel as [|fuel IH]; intros ch acc b; simpl.
  - destruct (isdigit ch || (ch =? 46)); [done|]. by intros [= <-].
  - destruct (isdigit ch || (ch =? 46)); [|by intros [= <-]].
    destruct (buf_put acc ch) as [acc'| |]; simpl; [|done..].
    destruct (read_char _ <? 0).
    + intros [= <-]. apply buf_consume_char.
    + intros H. apply IH in H. by rewrite H, buf_consume_char.
Qed.

(** The tokenizer never writes to the input buffer. *)
Lemma token_loop_buf (fuel : nat) (l : Locals) (b : InputBuffer) (e : list diag) r :
  token_loop fuel l b e = Ok r -> buf (snd (fst r)) = buf b.
Proof.
  revert l b r. induction fuel as [|fuel IH]; intros l b r; [done|].
  simpl.
  repeat case_match;
    try (intros Hrun; apply IH in Hrun; by rewrite Hrun, buf_consume_char);
    unfold single, lookahead, other, finish, obind; simpl;
    repeat (case_match; simplify_eq/=);
    try (intros [= <-]; simpl; rewrite ?buf_consume_char; try done);
    try done.
  all: match goal with
       | H : read_symbol _ = Ok _ |- _ =>
           unfold read_symbol in H; by apply read_symbol_loop_buf in H
       | H : read_number _ = Ok _ |- _ =>
           unfold read_number in H; by apply read_number_loop_buf in H
       end.
Qed.

Lemma consume_token_buf (s s' : Lexer) :
  consume_token s = Ok s' -> buf (buffer s') = buf (buffer s).
Proof.
  unfold consume_token.
  destruct (token_loop _ _ _ _) as [[[l b] e]| |] eqn:Hloop; simpl; [|done..].
  destruct (strdup (lbuf l)); simpl; [|done..].
  intros [= <-]. simpl. by apply token_loop_buf in Hloop.
Qed.

(** C8: a tokenizer run is a function of the buffer contents and the
    cursor alone.  Whatever the previous token and the error stream are,
    two runs on the same buffer and index end the same way, with the same
    token (type and text) and the same cursor; and a run repeated after
    the cursor has been put back yields the token and the cursor of the
    first run again. *)
Theorem tokenizer_deterministic (b : InputBuffer) (t1 t2 : Token) (e1 e2 : list diag) :
  observe (consume_token (mkLexer b t1 e1)) =
  observe (consume_token (mkLexer b t2 e2)) /\
  (forall s', consume_token (mkLexer b t1 e1) = Ok s' ->
     observe (consume_token (rewind (idx b) s')) = Ok (tok s', idx (buffer s'))).
Proof.
  assert (Hdet : forall t t' e e',
    observe (consume_token (mkLexer b t e)) =
    observe (consume_token (mkLexer b t' e'))).
  { intros t t' e e'. unfold consume_token. cbn [buffer stderr].
    rewrite (token_loop_stderr _ _ _ e), (token_loop_stderr _ _ _ e').
    destruct (token_loop _ _ _ []) as [[[l b'] e0]| |]; simpl; [|reflexivity..].
    by destruct (strdup (lbuf l)). }
  split; [apply Hdet|].
  intros s' Hrun.
  pose proof (consume_token_buf _ _ Hrun) as Hbuf. simpl in Hbuf.
  unfold rewind. rewrite Hbuf.
  replace (mkBuf (buf b) (idx b)) with b by (by destruct b).
  by rewrite (Hdet (tok s') t1 (stderr s') e1), Hrun.
Qed.

Lemma tokenizer_deterministic_witness :
  observe (consume_token (rewind 2
    (mkLexer (mkBuf (text "a <= b") 4) (mkToken T_LTE (Some (text "<="))) []))) =
  Ok (mkToken T_LTE (Some (text "<=")), 4%nat).
Proof.
  exact (proj2 (tokenizer_deterministic (mkBuf (text "a <= b") 2)
                  (mkToken T_SYM (Some (text "a"))) (mkToken T_ERROR None) []
                  [Unhandled_character 64])
               (mkLexer (mkBuf (text "a <= b") 4) (mkToken T_LTE (Some (text "<="))) [])
               eq_refl).
Defined.

(** *** Numbers *)

Lemma read_number_loop_negative (fuel : nat) (ch : Z) (acc : list ascii) (b : InputBuffer) :
  ch < 0 -> read_number_loop fuel ch acc b = Ok (acc, b).
Proof.
  intros Hneg.
  assert (Hcond : isdigit ch || (ch =? 46) = false).
  { unfold isdigit. apply orb_false_intro.
    - apply andb_false_intro1. apply Z.leb_gt. lia.
    - apply Z.eqb_neq. lia. }
  destruct fuel; simpl; by rewrite Hcond.
Qed.

Lemma numeric_char_not_NUL (c : ascii) : numeric_char c = true -> Ascii.eqb c NUL = false.
Proof.
  intros H. destruct (Ascii.eqb_spec c NUL) as [->|]; [|done].
  by vm_compute in H.
Qed.

Lemma cstring_numeric (l : list ascii) :
  forallb numeric_char l = true -> cstring l = l.
Proof.
  induction l as [|c l IH]; simpl; [done|].
  intros H. apply andb_true_iff in H as [Hc Hl].
  by rewrite (numeric_char_not_NUL c Hc), (IH Hl).
Qed.

(** [read_number_loop] on a buffer split at the cursor into what was read
    before, a run of numeric characters and a rest that does not go on
    with one. *)
Lemma read_number_loop_run (run pre rest acc : list ascii) (fuel : nat) :
  forallb numeric_char run = true ->
  match rest with [] => True | c :: _ => numeric_char c = false end ->
  (length acc + length run <= BUFSZ)%nat ->
  (length run + length rest <= fuel)%nat ->
  let b := mkBuf (pre ++ run ++ rest) (length pre) in
  read_number_loop fuel (read_char b) acc b =
    Ok (acc ++ run, mkBuf (pre ++ run ++ rest) (length pre + length run)).
Proof.
  revert pre acc fuel. induction run as [|c run IH]; intros pre acc fuel Hrun Hrest Hroom Hfuel b.
  - subst b. simpl. rewrite app_nil_r, Nat.add_0_r.
    destruct rest as [|c rest].
    + apply read_number_loop_negative.
      rewrite read_char_end; [lia|]. simpl. apply lookup_ge_None. rewrite app_nil_r. lia.
    + rewrite (read_char_at _ c).
      2:{ simpl. by rewrite lookup_app_r, Nat.sub_diag by lia. }
      fold (numeric_char c) in *. unfold numeric_char in Hrest.
      destruct fuel; simpl; by rewrite Hrest.
  - simpl in Hrun. apply andb_true_iff in Hrun as [Hc Hrun].
    simpl in Hroom, Hfuel.
    assert (Hat : buf b !! idx b = Some c).
    { subst b. simpl. by rewrite lookup_app_r, Nat.sub_diag by lia. }
    assert (Hshape : mkBuf (buf b) (S (idx b)) =
                     mkBuf ((pre ++ [c]) ++ run ++ rest) (length (pre ++ [c]))).
    { subst b. simpl. rewrite <- app_assoc. simpl. f_equal.
      rewrite length_app. simpl. lia. }
    clearbody b.
    rewrite (read_char_at b c Hat).
    destruct fuel as [|fuel]; [lia|]. simpl.
    unfold numeric_char in Hc. rewrite Hc.
    unfold buf_put. destruct (Nat.ltb_spec (length acc) BUFSZ) as [_|Hge]; [|lia].
    simpl. rewrite (consume_char_at b c Hat), char_roundtrip. simpl.
    rewrite Hshape.
    match goal with
    | |- (if ?ch <? 0 then _ else ?loop) = _ =>
        transitivity loop;
        [destruct (Z.ltb_spec ch 0);
         [symmetry; by apply read_number_loop_negative | reflexivity]|]
    end.
    specialize (IH (pre ++ [c]) (acc ++ [c]) fuel Hrun Hrest).
    simpl in IH. rewrite IH.
    + rewrite <- !app_assoc. simpl.
      replace (length (pre ++ [c]) + length run)%nat
        with (length pre + S (length run))%nat by (rewrite length_app; simpl; lia).
      reflexivity.
    + rewrite length_app. simpl. lia.
    + lia.
Qed.

Lemma overwrite_nil (new : list ascii) : overwrite new [] = new.
Proof. unfold overwrite. by rewrite drop_nil, app_nil_r. Qed.

Lemma token_loop_digit (fuel : nat) (l : Locals) (b : InputBuffer) (e : list diag) (d : ascii) :
  buf b !! idx b = Some d ->
  isdigit (int_of_char d) = true ->
  token_loop (S fuel) l b e =
    do r <~ read_number b; finish T_NUM (overwrite (fst r) (lbuf l)) (snd r) e.
Proof.
  intros Hat Hd. destruct (isdigit_spec _ Hd) as (Hcase & Hend & Hsym).
  rewrite token_loop_other by (by rewrite (read_char_at b d Hat)).
  rewrite (read_char_at b d Hat). unfold other. by rewrite Hend, Hsym, Hd.
Qed.

(** *** Numeric texts and [strtod] *)

Lemma points_app (a b : list ascii) : points (a ++ b) = (points a + points b)%nat.
Proof. unfold points. by rewrite filter_app, length_app. Qed.

Lemma points_cons_point (t : list ascii) : points ("."%char :: t) = S (points t).
Proof. unfold points. by rewrite filter_cons_True. Qed.

Lemma leading_digits_app (s : list ascii) :
  fst (leading_digits s) ++ snd (leading_digits s) = s.
Proof.
  induction s as [|c s IH]; simpl; [done|].
  destruct (isdigit (int_of_char c)); simpl; [by rewrite IH|done].
Qed.

Lemma leading_digits_points (s : list ascii) : points (fst (leading_digits s)) = 0%nat.
Proof.
  induction s as [|c s IH]; simpl; [done|].
  destruct (isdigit (int_of_char c)) eqn:Hd; simpl; [|done].
  unfold points in *. rewrite filter_cons_False; [done|].
  intros ->. vm_compute in Hd. discriminate.
Qed.

Lemma numeric_char_not_digit (c : ascii) :
  numeric_char c = true -> isdigit (int_of_char c) = false -> c = "."%char.
Proof.
  unfold numeric_char. intros H Hd. rewrite Hd in H. simpl in H.
  revert H. clear Hd.
  destruct c as [[] [] [] [] [] [] [] []]; vm_compute; intros H; try discriminate H; reflexivity.
Qed.

Lemma leading_digits_rest (s : list ascii) :
  forallb numeric_char s = true ->
  snd (leading_digits s) = [] \/
  exists r, snd (leading_digits s) = "."%char :: r /\ forallb numeric_char r = true.
Proof.
  induction s as [|c s IH]; simpl; [by left|].
  intros [Hc Hs]%andb_prop.
  destruct (isdigit (int_of_char c)) eqn:Hd; simpl; [by apply IH|].
  right. exists s. by rewrite (numeric_char_not_digit c Hc Hd).
Qed.

(** On a text of digits and points that starts with a digit, [strtod]
    uses the whole text when it holds at most one point, and stops on the
    second point otherwise. *)
Lemma numeric_rest_spec (t : list ascii) :
  numeric_text t = true ->
  ((points t <= 1)%nat /\ numeric_rest t = []) \/
  ((1 < points t)%nat /\ exists trail, numeric_rest t = "."%char :: trail).
Proof.
  destruct t as [|d r]; [done|]. cbn [numeric_text]. intros [Hd Hr]%andb_prop.
  assert (Hall : forallb numeric_char (d :: r) = true).
  { cbn [forallb]. rewrite Hr. unfold numeric_char. by rewrite Hd. }
  unfold numeric_rest, strtod_decimal.
  pose proof (leading_digits_app (d :: r)) as Happ.
  pose proof (leading_digits_points (d :: r)) as Hp0.
  pose proof (leading_digits_rest (d :: r) Hall) as Hrest.
  destruct (leading_digits (d :: r)) as [ip r1] eqn:Hld. cbn [fst snd] in *.
  assert (Hip : ip <> []).
  { simpl in Hld. rewrite Hd in Hld. by injection Hld as <- _. }
  destruct ip as [|i0 ip]; [done|].
  rewrite <- Happ, points_app, Hp0.
  destruct Hrest as [->|(r2 & -> & Hr2)].
  - left. split; [change (points []) with 0%nat; lia|done].
  - cbn [Ascii.eqb Bool.eqb]. cbn [snd].
    rewrite points_cons_point.
    assert (Hpr2 : points r2 = points (snd (leading_digits r2))).
    { rewrite <- (leading_digits_app r2) at 1.
      by rewrite points_app, leading_digits_points. }
    rewrite Hpr2.
    destruct (leading_digits_rest r2 Hr2) as [->|(r3 & -> & _)].
    + left. split; [change (points []) with 0%nat; lia|done].
    + right. rewrite points_cons_point. split; [lia|by eexists].
Qed.

Lemma str_to_num_malformed (double : Type) (double_of_int : Z -> double)
    (strtod : list ascii -> double * list ascii) (t : list ascii) (err : list diag) :
  C_strtod strtod ->
  numeric_text t = true ->
  (1 < points t)%nat ->
  str_to_num double double_of_int strtod t err =
    (double_of_int 0, err ++ [Invalid_float t]).
Proof.
  intros HC Ht Hp. unfold str_to_num. rewrite (HC t Ht).
  destruct (numeric_rest_spec t Ht) as [[Hp' _]|[_ (trail & ->)]]; [lia|done].
Qed.

(** C4, as the specification has it, fails twice on "1.2.3".  The line is
    read as one numeric token, whose text has two decimal points.  And
    the text is not parsed: [str_to_num] writes its message for this text,
    wherever [strtod] stops at the second point as the C library's does,
    yet the tokenizer call ends with an empty error stream. *)
Lemma number_token_with_two_points :
  consume_token (start "1.2.3") =
    Ok (mkLexer (mkBuf (text "1.2.3") 5) (mkToken T_NUM (Some (text "1.2.3"))) []) /\
  points (text "1.2.3") = 2%nat /\
  ~ number_has_one_point /\
  (forall (double : Type) (double_of_int : Z -> double)
          (strtod : list ascii -> double * list ascii),
     C_strtod strtod ->
     snd (str_to_num double double_of_int strtod (text "1.2.3") []) =
       [Invalid_float (text "1.2.3")]) /\
  ~ number_text_is_parsed.
Proof.
  split; [reflexivity|]. split; [reflexivity|]. split; [|split].
  - intros H.
    specialize (H (start "1.2.3")
                  (mkLexer (mkBuf (text "1.2.3") 5) (mkToken T_NUM (Some (text "1.2.3"))) [])
                  "1"%char (text "1.2.3") eq_refl eq_refl eq_refl eq_refl).
    vm_compute in H. lia.
  - intros double double_of_int strtod HC. unfold str_to_num.
    by rewrite (HC (text "1.2.3") eq_refl).
  - intros H.
    specialize (H (Z * Z)%type (fun n => (n, 1)) strtod_decimal (fun t _ => eq_refl)
                  (start "1.2.3")
                  (mkLexer (mkBuf (text "1.2.3") 5) (mkToken T_NUM (Some (text "1.2.3"))) [])
                  "1"%char (text "1.2.3") eq_refl eq_refl eq_refl eq_refl).
    vm_compute in H. discriminate H.
Qed.

(** C4, amended: with the cursor on a digit, the tokenizer consumes the
    longest run of digits and decimal points that starts there, however
    many points it holds, provided the run fits the 1024-byte token array
    with its terminator; the token is [T_NUM], its text is the run, and the
    cursor stops right after the run.  The text is not parsed to a
    double: the call leaves the token, type and text, and the moved
    cursor, and the error stream is as it was; so, when the run holds
    more than one point, the message [str_to_num] writes for such a text
    is not on it. *)
Theorem number_token_maximal_run (s : Lexer) (d : ascii) (run rest : list ascii) :
  drop (idx (buffer s)) (buf (buffer s)) = d :: run ++ rest ->
  isdigit (int_of_char d) = true ->
  forallb numeric_char run = true ->
  match rest with [] => True | c :: _ => numeric_char c = false end ->
  (length (d :: run) < BUFSZ)%nat ->
  consume_token s =
    Ok (mkLexer (mkBuf (buf (buffer s)) (idx (buffer s) + length (d :: run)))
                (mkToken T_NUM (Some (d :: run))) (stderr s)) /\
  (forall (double : Type) (double_of_int : Z -> double)
          (strtod : list ascii -> double * list ascii),
     C_strtod strtod ->
     (1 < points (d :: run))%nat ->
     snd (str_to_num double double_of_int strtod (d :: run) (stderr s)) <> stderr s).
Proof.
  destruct s as [[bf ix] tk er]. cbn [buffer buf idx stderr].
  intros Hdrop Hd Hrun Hrest Hlen. split; cycle 1.
  { intros double double_of_int strtod HC Hp.
    rewrite (str_to_num_malformed _ _ _ _ _ HC); [|cbn [numeric_text]; by rewrite Hd, Hrun|done].
    cbn [snd]. intros E. apply (f_equal length) in E. rewrite length_app in E.
    simpl in E. lia. }
  assert (Hbf : bf = take ix bf ++ (d :: run) ++ rest).
  { simpl. by rewrite <- Hdrop, take_drop. }
  assert (Hix : ix = length (take ix bf)).
  { rewrite length_take. destruct (Nat.le_gt_cases (length bf) ix) as [Hge|Hlt]; [|lia].
    by rewrite (drop_ge _ _ Hge) in Hdrop. }
  remember (take ix bf) as pre eqn:Hpre. clear Hpre Hdrop. subst bf ix.
  assert (Hnum : forallb numeric_char (d :: run) = true).
  { simpl. rewrite Hrun. unfold numeric_char. by rewrite Hd. }
  assert (Hat : (pre ++ (d :: run) ++ rest) !! length pre = Some d).
  { by rewrite lookup_app_r, Nat.sub_diag by lia. }
  unfold consume_token. cbn [buffer stderr].
  rewrite (token_loop_digit _ _ (mkBuf (pre ++ (d :: run) ++ rest) (length pre)) _ d Hat Hd).
  unfold read_number.
  pose proof (read_number_loop_run (d :: run) pre rest []
                (len (mkBuf (pre ++ (d :: run) ++ rest) (length pre)) - length pre)
                Hnum Hrest) as Hloop.
  cbn zeta in Hloop. cbn [idx]. rewrite Hloop.
  - cbn [obind finish fst snd lbuf ttype_ app]. rewrite overwrite_nil.
    unfold strdup. rewrite (cstring_numeric _ Hnum).
    destruct (Nat.ltb_spec (length (d :: run)) BUFSZ) as [_|Hge]; [|exfalso; clear -Hlen Hge; lia].
    reflexivity.
  - cbn [length Nat.add] in *. lia.
  - unfold len. cbn [buf]. rewrite !length_app. cbn [length]. lia.
Qed.

Lemma number_token_maximal_run_witness :
  consume_token (start "1.2.3+4") =
    Ok (mkLexer (mkBuf (text "1.2.3+4") 5) (mkToken T_NUM (Some (text "1.2.3"))) []) /\
  snd (str_to_num (Z * Z) (fun n => (n, 1)) strtod_decimal (text "1.2.3") []) <> [].
Proof.
  assert (Hlen : (length (text "1.2.3") < BUFSZ)%nat) by (vm_compute; lia).
  destruct (number_token_maximal_run (start "1.2.3+4") "1"%char (text ".2.3") (text "+4")
              eq_refl eq_refl eq_refl eq_refl Hlen) as [Htok Hraw].
  split; [exact Htok|].
  apply (Hraw (Z * Z)%type (fun n => (n, 1)) strtod_decimal (fun t _ => eq_refl)).
  vm_compute. lia.
Defined.

(** *** The loops end within their budget *)

Lemma read_char_some (b : InputBuffer) :
  read_char b <> -1 ->
  (idx b < len b)%nat /\ snd (consume_char b) = mkBuf (buf b) (S (idx b)).
Proof.
  unfold read_char, consume_char.
  destruct (Nat.ltb_spec (idx b) (len b)); [done|]. by intros [].
Qed.

Lemma read_symbol_loop_returns (fuel : nat) (acc : list ascii) (b : InputBuffer) :
  (len b - idx b <= fuel)%nat ->
  read_symbol_loop fuel (read_char b) acc b <> Timeout.
Proof.
  revert acc b. induction fuel as [|fuel IH]; intros acc b Hfuel; simpl.
  - unfold read_char. destruct (Nat.ltb_spec (idx b) (len b)); [lia|by vm_compute].
  - destruct (isalpha (read_char b) || (read_char b =? 95)) eqn:Hcond; [|done].
    unfold buf_put. destruct (length acc <? BUFSZ)%nat; simpl; [|done].
    destruct (read_char_some b) as [Hlt ->].
    { intros Heq. by rewrite Heq in Hcond. }
    destruct (_ <? 0); [done|]. apply IH. unfold len in *. simpl. lia.
Qed.

Lemma read_number_loop_returns (fuel : nat) (acc : list ascii) (b : InputBuffer) :
  (len b - idx b <= fuel)%nat ->
  read_number_loop fuel (read_char b) acc b <> Timeout.
Proof.
  revert acc b. induction fuel as [|fuel IH]; intros acc b Hfuel; simpl.
  - unfold read_char. destruct (Nat.ltb_spec (idx b) (len b)); [lia|by vm_compute].
  - destruct (isdigit (read_char b) || (read_char b =? 46)) eqn:Hcond; [|done].
    unfold buf_put. destruct (length acc <? BUFSZ)%nat; simpl; [|done].
    destruct (read_char_some b) as [Hlt ->].
    { intros Heq. by rewrite Heq in Hcond. }
    destruct (_ <? 0); [done|]. apply IH. unfold len in *. simpl. lia.
Qed.

Lemma token_loop_returns (fuel : nat) (l : Locals) (b : InputBuffer) (e : list diag) :
  (len b - idx b < fuel)%nat ->
  token_loop fuel l b e <> Timeout.
Proof.
  revert l b. induction fuel as [|fuel IH]; intros l b Hfuel; [lia|].
  pose proof (read_symbol_loop_returns (len b - idx b) [] b (Nat.le_refl _)) as Hsym.
  pose proof (read_number_loop_returns (len b - idx b) [] b (Nat.le_refl _)) as Hnum.
  fold (read_symbol b) in Hsym. fold (read_number b) in Hnum.
  cbn [token_loop].
  repeat case_match; subst;
    try (apply IH; destruct (read_char_some b) as [Hlt ->]; [congruence|];
         unfold len in *; simpl; lia);
    unfold single, lookahead, other, finish, obind, buf_put;
    repeat (case_match; simplify_eq/=); done.
Qed.

(** [consume_token] always comes back: with a token, or with a fault when
    the token does not fit the 1024-byte array. *)
Lemma consume_token_returns (s : Lexer) : consume_token s <> Timeout.
Proof.
  unfold consume_token.
  pose proof (token_loop_returns (S (len (buffer s) - idx (buffer s)))
                (mkLocals [] T_END_BUF) (buffer s) (stderr s)) as Hloop.
  destruct (token_loop _ _ _ _) as [[[l b] e]| |]; simpl; [|done|].
  - unfold strdup. by destruct (_ <? _)%nat.
  - exfalso. apply Hloop; [lia|done].
Qed.

(** *** Every token but the end marker moves the cursor *)

Lemma read_symbol_loop_idx (fuel : nat) (acc : list ascii) (b : InputBuffer) r :
  read_symbol_loop fuel (read_char b) acc b = Ok r ->
  (idx b <= idx (snd r))%nat /\
  (isalpha (read_char b) || (read_char b =? 95) = true -> (idx b < idx (snd r))%nat).
Proof.
  revert acc b. induction fuel as [|fuel IH]; intros acc b; simpl.
  - destruct (isalpha _ || _); [done|]. intros [= <-]. simpl. split; [lia|done].
  - destruct (isalpha _ || _) eqn:Hcond; [|intros [= <-]; simpl; split; [lia|done]].
    unfold buf_put. destruct (length acc <? BUFSZ)%nat; simpl; [|done].
    destruct (read_char_some b) as [Hlt ->].
    { intros Heq. by rewrite Heq in Hcond. }
    destruct (_ <? 0).
    + intros [= <-]. simpl. split; [lia|intros _; lia].
    + intros Hrun. apply IH in Hrun as [Hle _]. simpl in Hle. split; [lia|intros _; lia].
Qed.

Lemma read_number_loop_idx (fuel : nat) (acc : list ascii) (b : InputBuffer) r :
  read_number_loop fuel (read_char b) acc b = Ok r ->
  (idx b <= idx (snd r))%nat /\
  (isdigit (read_char b) || (read_char b =? 46) = true -> (idx b < idx (snd r))%nat).
Proof.
  revert acc b. induction fuel as [|fuel IH]; intros acc b; simpl.
  - destruct (isdigit _ || _); [done|]. intros [= <-]. simpl. split; [lia|done].
  - destruct (isdigit _ || _) eqn:Hcond; [|intros [= <-]; simpl; split; [lia|done]].
    unfold buf_put. destruct (length acc <? BUFSZ)%nat; simpl; [|done].
    destruct (read_char_some b) as [Hlt ->].
    { intros Heq. by rewrite Heq in Hcond. }
    destruct (_ <? 0).
    + intros [= <-]. simpl. split; [lia|intros _; lia].
    + intros Hrun. apply IH in Hrun as [Hle _]. simpl in Hle. split; [lia|intros _; lia].
Qed.

Lemma consume_char_idx (b : InputBuffer) :
  read_char b <> -1 -> idx (snd (consume_char b)) = S (idx b).
Proof. intros H. by destruct (read_char_some b H) as [_ ->]. Qed.

Lemma has_case_labels (ch : Z) : has_case ch = true -> In ch case_labels.
Proof.
  unfold has_case. intros H. apply existsb_exists in H as (x & Hin & Heq).
  apply Z.eqb_eq in Heq. by subst.
Qed.

Lemma other_progress (b : InputBuffer) (e : list diag) r :
  other (read_char b) (mkLocals [] T_END_BUF) b e = Ok r ->
  ttype_ (fst (fst r)) <> T_END_BUF ->
  (idx b < idx (snd (fst r)))%nat.
Proof.
  unfold other, finish. cbn [lbuf ttype_ length Nat.eqb].
  destruct (Z.eqb_spec (read_char b) (-1)) as [|Hne]; [by intros [= <-]|].
  destruct (isalpha _ || _) eqn:Hsym.
  { destruct (read_symbol b) as [rs| |] eqn:Hrs; cbn [obind]; [|done..].
    intros [= <-] _. cbn [fst snd].
    by apply (read_symbol_loop_idx _ _ _ _ Hrs). }
  destruct (isdigit _) eqn:Hdig.
  { destruct (read_number b) as [rn| |] eqn:Hrn; cbn [obind]; [|done..].
    intros [= <-] _. cbn [fst snd].
    apply (read_number_loop_idx _ _ _ _ Hrn). by rewrite Hdig. }
  intros [= <-] _. cbn [fst snd]. rewrite consume_char_idx by done. lia.
Qed.

Lemma token_loop_progress (fuel : nat) (b : InputBuffer) (e : list diag) r :
  token_loop fuel (mkLocals [] T_END_BUF) b e = Ok r ->
  ttype_ (fst (fst r)) <> T_END_BUF ->
  (idx b < idx (snd (fst r)))%nat.
Proof.
  revert b r. induction fuel as [|fuel IH]; intros b r; [done|].
  destruct (has_case (read_char b)) eqn:Hcase.
  - pose proof (consume_char_idx b) as Hstep.
    apply has_case_labels in Hcase. cbn [token_loop].
    assert (Hput : forall ch, buf_put [] ch = Ok [char_of_int ch]) by done.
    assert (Hput2 : forall c ch, buf_put [c] ch = Ok [c; char_of_int ch]) by done.
    simpl in Hcase.
    repeat (destruct Hcase as [Hch|Hcase]; [rewrite <- Hch in *|]); try done.
    1,2: intros Hrun Hty; specialize (IH _ _ Hrun Hty);
         rewrite Hstep in IH by done; lia.
    1-8: unfold single, finish; cbn [lbuf]; rewrite Hput; cbn [obind];
         intros [= <-] _; cbn [fst snd]; rewrite Hstep by done; lia.
    all: unfold lookahead, finish; cbn [lbuf]; rewrite Hput; cbn [obind];
         destruct (Z.eqb_spec (read_char (snd (consume_char b))) 61) as [H61|_];
         [ rewrite Hput2; cbn [obind]; intros [= <-] _; cbn [fst snd];
           rewrite consume_char_idx by (rewrite H61; done);
           rewrite Hstep by done; lia
         | intros [= <-] _; cbn [fst snd]; rewrite Hstep by done; lia ].
  - rewrite token_loop_other by done. apply other_progress.
Qed.

Lemma consume_token_progress (s s' : Lexer) :
  consume_token s = Ok s' ->
  type (tok s') <> T_END_BUF ->
  (idx (buffer s) < idx (buffer s'))%nat.
Proof.
  unfold consume_token.
  destruct (token_loop _ _ _ _) as [[[l b] e]| |] eqn:Hloop; cbn [obind]; [|done..].
  destruct (strdup (lbuf l)); cbn [obind]; [|done..].
  intros [= <-]. cbn [tok type buffer]. intros Hty.
  by apply (token_loop_progress _ _ _ _ Hloop).
Qed.

(** ... and the cursor never leaves the text. *)
Lemma consume_char_bound (b : InputBuffer) :
  (idx (snd (consume_char b)) <= Nat.max (idx b) (len b))%nat /\
  len (snd (consume_char b)) = len b.
Proof.
  unfold consume_char, len.
  destruct (Nat.ltb_spec (idx b) (length (buf b))); simpl; lia.
Qed.

Lemma read_symbol_loop_bound (fuel : nat) (ch : Z) (acc : list ascii) (b : InputBuffer) r :
  read_symbol_loop fuel ch acc b = Ok r ->
  (idx (snd r) <= Nat.max (idx b) (len b))%nat.
Proof.
  revert ch acc b. induction fuel as [|fuel IH]; intros ch acc b; simpl.
  - destruct (isalpha _ || _); [done|]. intros [= <-]. simpl. lia.
  - destruct (isalpha _ || _); [|intros [= <-]; simpl; lia].
    unfold buf_put. destruct (length acc <? BUFSZ)%nat; simpl; [|done].
    pose proof (consume_char_bound b) as [Hle Hlen].
    destruct (_ <? 0).
    + by intros [= <-].
    + intros Hrun. apply IH in Hrun. lia.
Qed.

Lemma read_number_loop_bound (fuel : nat) (ch : Z) (acc : list ascii) (b : InputBuffer) r :
  read_number_loop fuel ch acc b = Ok r ->
  (idx (snd r) <= Nat.max (idx b) (len b))%nat.
Proof.
  revert ch acc b. induction fuel as [|fuel IH]; intros ch acc b; simpl.
  - destruct (isdigit _ || _); [done|]. intros [= <-]. simpl. lia.
  - destruct (isdigit _ || _); [|intros [= <-]; simpl; lia].
    unfold buf_put. destruct (length acc <? BUFSZ)%nat; simpl; [|done].
    pose proof (consume_char_bound b) as [Hle Hlen].
    destruct (_ <? 0).
    + by intros [= <-].
    + intros Hrun. apply IH in Hrun. lia.
Qed.

Lemma token_loop_bound (fuel : nat) (l : Locals) (b : InputBuffer) (e : list diag) r :
  token_loop fuel l b e = Ok r ->
  (idx (snd (fst r)) <= Nat.max (idx b) (len b))%nat.
Proof.
  revert l b r. induction fuel as [|fuel IH]; intros l b r; [done|].
  pose proof (consume_char_bound b) as [Hle Hlen].
  pose proof (consume_char_bound (snd (consume_char b))) as [Hle2 Hlen2].
  simpl.
  repeat case_match;
    try (intros Hrun; apply IH in Hrun; lia);
    unfold single, lookahead, other, finish, obind; simpl;
    repeat (case_match; simplify_eq/=);
    try (intros [= <-]; simpl; lia);
    try done.
  all: intros [= <-]; simpl;
       match goal with
       | H : read_symbol _ = Ok _ |- _ =>
           unfold read_symbol in H; by apply read_symbol_loop_bound in H
       | H : read_number _ = Ok _ |- _ =>
           unfold read_number in H; by apply read_number_loop_bound in H
       end.
Qed.

Lemma consume_token_bound (s s' : Lexer) :
  consume_token s = Ok s' ->
  (idx (buffer s') <= Nat.max (idx (buffer s)) (len (buffer s)))%nat.
Proof.
  unfold consume_token.
  destruct (token_loop _ _ _ _) as [[[l b] e]| |] eqn:Hloop; cbn [obind]; [|done..].
  destruct (strdup (lbuf l)); cbn [obind]; [|done..].
  intros [= <-]. cbn [buffer]. by apply token_loop_bound in Hloop.
Qed.

(** ** Parsing a numeric text *)




(** ** The entry points *)

Section Stubs.

Variable value_args : Token -> ValType * TokType * list ascii * Z.
Variable junk : addr -> pointer.

Lemma append_returns (p v : pointer) (m : Mem) : append p v m <> Timeout.
Proof.
  unfold append, load_repo, load_value, obind.
  repeat (case_match; simplify_eq/=); done.
Qed.

Lemma convert_loop_returns (fuel : nat) (repo : pointer) (c : Calc) :
  (len (buffer (lexer c)) - idx (buffer (lexer c)) < fuel)%nat ->
  convert_loop value_args junk fuel repo c <> Timeout.
Proof.
  revert c. induction fuel as [|fuel IH]; intros c Hfuel; [lia|].
  cbn [convert_loop].
  destruct (consume_token (lexer c)) as [lx| |] eqn:Hlx; cbn [obind];
    [|done|by apply consume_token_returns in Hlx].
  cbv zeta. cbn [verbo_flag].
  set (c2 := if verbo_flag c then _ else _).
  assert (Hlex : lexer c2 = lx) by (subst c2; by destruct (verbo_flag c)).
  clearbody c2. rewrite Hlex.
  pose proof (consume_token_buf _ _ Hlx) as Hbuf.
  pose proof (consume_token_progress _ _ Hlx) as Hidx.
  pose proof (consume_token_bound _ _ Hlx) as Hmax.
  destruct (type (tok lx)) eqn:Hty; [done|..];
    (destruct (append _ _ _) as [m2| |] eqn:Happ; cbn [obind];
     [|done|by apply append_returns in Happ];
     apply IH; cbn [lexer]; unfold len in *; rewrite Hbuf in *;
     specialize (Hidx ltac:(congruence)); lia).
Qed.

(** [convert] comes back for every line: with the repository, or with
    the fault of a token that does not fit its array. *)
Lemma convert_returns (c : Calc) : convert value_args junk c <> Timeout.
Proof.
  unfold convert.
  destruct (convert_loop _ _ _ _ _) as [c1| |] eqn:Hloop; cbn [obind]; [done..|].
  exfalso. apply convert_loop_returns in Hloop; [done|]. cbn [lexer]. lia.
Qed.

(** [append] moves the tail only: the head of the repository stays. *)
Lemma append_keeps_head (r : addr) (v : pointer) (m m' : Mem) :
  append (Some r) v m = Ok m' ->
  head <$> (repos m' !! r) = head <$> (repos m !! r).
Proof.
  unfold append, load_repo.
  destruct (repos m !! r) as [R|] eqn:HR; simpl; [|done].
  assert (Hlink : forall m1,
    (match tail R with
     | Some t =>
         match v with
         | Some _ => do T <~ load_value t m; Ok (store_value t (set_next T v) m)
         | None => Ok m
         end
     | None => Ok m
     end) = Ok m1 -> repos m1 = repos m).
  { intros m1. destruct (tail R) as [t|]; [|by intros [= <-]].
    destruct v; [|by intros [= <-]].
    destruct (load_value t m); simpl; [|done..]. by intros [= <-]. }
  destruct (match tail R with Some _ => _ | None => _ end) as [m1| |]; simpl; [|done..].
  intros [= <-]. simpl. by rewrite lookup_insert_eq.
Qed.



(** C1 on the code: for "3 + 4 * 2", [convert] reads the five tokens and
    the end marker in infix order (the verbose mode prints them) and makes
    one cell per token in that order; nothing is reordered.  The
    repository it fills keeps a NULL head, so reading it as a queue gives
    no cell at all, and [solve] hands back no value: neither the postfix
    sequence 3 4 2 * + nor the result 11 is produced. *)
Theorem convert_leaves_infix_order (verbose : bool) :
  exists (r : addr) (c : Calc),
    convert value_args junk (boot verbose "3 + 4 * 2") = Ok (r, c) /\
    stdout c = (if verbose then infix_tokens else []) /\
    repos (mem c) !! r = Some (mkRepo NULL (Some 5%positive) NULL) /\
    next <$> (values (mem c) !! 1%positive) = Some (Some 2%positive) /\
    (values (mem c) !! 2%positive =
       let a := value_args (mkToken T_PLUS (Some (text "+"))) in
       Some (mkValue (fst (fst (fst a))) (snd (fst (fst a))) (snd a)
                     (snd (fst a)) (Some 3%positive))) /\
    queue_cells 8 (Some r) (mem c) = Ok [] /\
    solve (Some r) c = Ok (None, c).
Proof.
  destruct verbose; (eexists _, _; split; [vm_compute; reflexivity|]); by repeat split.
Qed.

(** C7 on the code: for "1 / 0", [solve] after [convert] returns without
    a value and without a word on the error stream: no division is
    evaluated and no evaluation error is raised. *)
Theorem solve_reports_no_division_by_zero (verbose : bool) :
  exists (r : addr) (c : Calc),
    convert value_args junk (boot verbose "1 / 0") = Ok (r, c) /\
    solve (Some r) c = Ok (None, c) /\
    stderr (lexer c) = [].
Proof.
  destruct verbose; (eexists _, _; split; [vm_compute; reflexivity|]); by split.
Qed.

End Stubs.

(** * More of the program *)

(** ** The repository as a stack and as a queue *)

Lemma chain_values (m m' : Mem) (p : pointer) (l : list addr) :
  values m' = values m -> chain m p l -> chain m' p l.
Proof.
  intros Hv. revert p. induction l as [|a l IH]; intros p; simpl; [done|].
  intros (-> & V & HV & Hl). split; [done|]. exists V. rewrite Hv. by split; [|apply IH].
Qed.

Lemma chain_store_other (m : Mem) (v : addr) (V' : Value) (p : pointer) (l : list addr) :
  v ∉ l -> chain m p l -> chain (store_value v V' m) p l.
Proof.
  revert p. induction l as [|a l IH]; intros p Hnin; simpl; [done|].
  apply not_elem_of_cons in Hnin as [Hne Hnin].
  intros (-> & V & HV & Hl). split; [done|]. exists V.
  rewrite lookup_insert_ne by done. by split; [|apply IH].
Qed.

(** X1: [push] puts the cell on top of the stack.  When the cells linked
    from the head are [l] and [v] is a cell outside [l], then after
    [push] the head is [v], the cells linked from it are [v :: l], and the
    tail and current pointers are as before. *)
Theorem push_prepends (m : Mem) (r v : addr) (R : ValueRepo) (V : Value) (l : list addr) :
  repos m !! r = Some R ->
  values m !! v = Some V ->
  chain m (head R) l ->
  v ∉ l ->
  exists m1,
    push (Some r) (Some v) m = Ok m1 /\
    repos m1 !! r = Some (mkRepo (Some v) (tail R) (crnt R)) /\
    chain m1 (Some v) (v :: l).
Proof.
  intros HR HV Hl Hnin. eexists. split.
  { unfold push. by rewrite (load_repo_Some _ _ _ HR), (load_value_Some _ _ _ HV). }
  split; [apply lookup_insert_eq|].
  simpl. split; [done|]. eexists. split; [apply lookup_insert_eq|].
  simpl. apply (chain_values (store_value v (set_next V (head R)) m)); [done|].
  by apply chain_store_other.
Qed.

Lemma push_prepends_witness :
  exists m1,
    push (Some 1%positive) (Some 9%positive) two_cell_stack = Ok m1 /\
    repos m1 !! 1%positive = Some (mkRepo (Some 9%positive) NULL NULL) /\
    chain m1 (Some 9%positive) [9%positive; 7%positive; 8%positive].
Proof.
  refine (push_prepends two_cell_stack 1%positive 9%positive
            (mkRepo (Some 7%positive) NULL NULL)
            (mkValue V_SYM T_SYM 0 (text "x") NULL) [7%positive; 8%positive]
            eq_refl eq_refl _ _).
  - simpl. split; [done|]. eexists. split; [reflexivity|]. simpl.
    split; [done|]. eexists. by split; [reflexivity|].
  - intros Hin. apply elem_of_cons in Hin as [Hin|Hin]; [discriminate|].
    apply elem_of_cons in Hin as [Hin|Hin]; [discriminate|]. by apply elem_of_nil in Hin.
Defined.

(** X2: [pop] takes the top cell off and touches no cell.  When the cells
    linked from the head are [a :: l], [pop] returns [a], the head moves to
    the cells [l], the tail and current pointers stay, and every value cell
    is as before (the popped cell still points into the stack). *)
Theorem pop_takes_top (m : Mem) (r a : addr) (R : ValueRepo) (l : list addr) :
  repos m !! r = Some R ->
  chain m (head R) (a :: l) ->
  exists m1 p,
    pop (Some r) m = Ok (Some a, m1) /\
    values m1 = values m /\
    repos m1 !! r = Some (mkRepo p (tail R) (crnt R)) /\
    chain m1 p l.
Proof.
  intros HR (Hh & V & HV & Hl). exists (store_repo r (set_head R (next V)) m), (next V).
  split.
  { unfold pop. rewrite (load_repo_Some _ _ _ HR). simpl. rewrite Hh.
    by rewrite (load_value_Some _ _ _ HV). }
  split; [done|]. split; [apply lookup_insert_eq|].
  by apply (chain_values m).
Qed.

Lemma pop_takes_top_witness :
  exists m1 p,
    pop (Some 1%positive) two_cell_stack = Ok (Some 7%positive, m1) /\
    values m1 = values two_cell_stack /\
    repos m1 !! 1%positive = Some (mkRepo p NULL NULL) /\
    chain m1 p [8%positive].
Proof.
  refine (pop_takes_top two_cell_stack 1%positive 7%positive
            (mkRepo (Some 7%positive) NULL NULL) [8%positive] eq_refl _).
  simpl. split; [done|]. eexists. split; [reflexivity|]. simpl.
  split; [done|]. eexists. by split; [reflexivity|].
Defined.

(** X3: pushing the cell that is already on top ties it to itself: from
    then on every [pop] returns that cell and the stack never empties. *)
Theorem push_top_again_cycles (m : Mem) (r v : addr) (R : ValueRepo) (V : Value) :
  repos m !! r = Some R ->
  head R = Some v ->
  values m !! v = Some V ->
  exists m1,
    push (Some r) (Some v) m = Ok m1 /\
    forall n, pop_n n (Some r) m1 = Ok (replicate n (Some v), m1).
Proof.
  intros HR Hh HV. eexists. split.
  { unfold push. by rewrite (load_repo_Some _ _ _ HR), (load_value_Some _ _ _ HV). }
  set (m1 := store_repo r _ _).
  assert (Hpop : pop (Some r) m1 = Ok (Some v, m1)).
  { unfold pop, load_repo, load_value. subst m1. simpl.
    rewrite !lookup_insert_eq. simpl. rewrite lookup_insert_eq. simpl.
    rewrite Hh. unfold store_repo. simpl. rewrite insert_insert_eq.
    by unfold set_head. }
  clearbody m1. induction n as [|n IH]; cbn [pop_n replicate]; [done|].
  rewrite Hpop. cbn [obind fst snd]. by rewrite IH.
Qed.

Lemma push_top_again_cycles_witness :
  exists m1,
    push (Some 1%positive) (Some 7%positive) two_cell_stack = Ok m1 /\
    forall n, pop_n n (Some 1%positive) m1 = Ok (replicate n (Some 7%positive), m1).
Proof.
  exact (push_top_again_cycles two_cell_stack 1%positive 7%positive
           (mkRepo (Some 7%positive) NULL NULL)
           (mkValue V_NUM T_NUM 3 (text "3") (Some 8%positive)) eq_refl eq_refl eq_refl).
Defined.

Lemma get_all_chain (r : addr) (l : list addr) (m : Mem) (R : ValueRepo) (fuel : nat) :
  repos m !! r = Some R ->
  chain m (crnt R) l ->
  (length l < fuel)%nat ->
  get_all fuel (Some r) m = Ok l.
Proof.
  revert m R fuel. induction l as [|a l IH]; intros m R fuel HR Hl Hfuel;
    (destruct fuel as [|fuel]; [simpl in Hfuel; lia|]); cbn [get_all].
  - simpl in Hl. unfold get. rewrite (load_repo_Some _ _ _ HR). simpl. by rewrite Hl.
  - destruct Hl as (Hc & C & HC & Hl).
    unfold get. rewrite (load_repo_Some _ _ _ HR). simpl. rewrite Hc.
    rewrite (load_value_Some _ _ _ HC). simpl.
    rewrite (IH _ (set_crnt R (next C)) fuel); [done|apply lookup_insert_eq| |simpl in Hfuel; lia].
    by apply (chain_values m).
Qed.

Lemma get_all_heap_chain (r : addr) (l : list addr) (m : Mem) (R : ValueRepo) (fuel : nat) :
  repos m !! r = Some R ->
  chain m (crnt R) l ->
  (length l < fuel)%nat ->
  get_all_heap fuel (Some r) m = Ok (l, store_repo r (set_crnt R NULL) m).
Proof.
  revert m R fuel. induction l as [|a l IH]; intros m R fuel HR Hl Hfuel;
    (destruct fuel as [|fuel]; [simpl in Hfuel; lia|]); cbn [get_all_heap].
  - simpl in Hl. unfold get. rewrite (load_repo_Some _ _ _ HR). simpl. rewrite Hl. simpl.
    do 2 f_equal. destruct m as [vs rs], R as [h t c]. simpl in *. subst c.
    unfold store_repo, set_crnt. simpl. by rewrite insert_id.
  - destruct Hl as (Hc & C & HC & Hl).
    unfold get. rewrite (load_repo_Some _ _ _ HR). simpl. rewrite Hc.
    rewrite (load_value_Some _ _ _ HC). simpl.
    rewrite (IH _ (set_crnt R (next C)) fuel);
      [|apply lookup_insert_eq|by apply (chain_values m)|simpl in Hfuel; lia].
    simpl. do 2 f_equal. unfold store_repo, set_crnt. simpl. by rewrite insert_insert_eq.
Qed.

(** X4: reading the repository as a queue walks the stack without taking
    it apart.  When the cells linked from the head are [l], [reset]
    followed by [get] until NULL yields exactly [l], top first, and the
    heap it leaves is the heap it found but for the read position [crnt]
    of this repository, now NULL: every cell, the [head] and the [tail]
    are as before, and the cells linked from the head are still [l]. *)
Theorem queue_reads_the_stack (m : Mem) (r : addr) (R : ValueRepo) (l : list addr) (fuel : nat) :
  repos m !! r = Some R ->
  chain m (head R) l ->
  (length l < fuel)%nat ->
  queue_cells fuel (Some r) m = Ok l /\
  queue_read fuel (Some r) m = Ok (l, store_repo r (mkRepo (head R) (tail R) NULL) m) /\
  chain (store_repo r (mkRepo (head R) (tail R) NULL) m) (head R) l.
Proof.
  intros HR Hl Hfuel. split; [|split].
  - unfold queue_cells, reset. rewrite (load_repo_Some _ _ _ HR). simpl.
    apply (get_all_chain r l _ (set_crnt R (head R))); [apply lookup_insert_eq| |done].
    by apply (chain_values m).
  - unfold queue_read, reset. rewrite (load_repo_Some _ _ _ HR). simpl.
    rewrite (get_all_heap_chain r l _ (set_crnt R (head R)));
      [|apply lookup_insert_eq|by apply (chain_values m)|done].
    do 2 f_equal. unfold store_repo, set_crnt. simpl. by rewrite insert_insert_eq.
  - by apply (chain_values m).
Qed.

Lemma queue_reads_the_stack_witness :
  queue_cells 3 (Some 1%positive) two_cell_stack = Ok [7%positive; 8%positive] /\
  queue_read 3 (Some 1%positive) two_cell_stack =
    Ok ([7%positive; 8%positive],
        store_repo 1%positive (mkRepo (Some 7%positive) NULL NULL) two_cell_stack) /\
  chain (store_repo 1%positive (mkRepo (Some 7%positive) NULL NULL) two_cell_stack)
        (Some 7%positive) [7%positive; 8%positive].
Proof.
  refine (queue_reads_the_stack two_cell_stack 1%positive
            (mkRepo (Some 7%positive) NULL NULL) [7%positive; 8%positive] 3
            eq_refl _ _).
  - simpl. split; [done|]. eexists. split; [reflexivity|]. simpl.
    split; [done|]. eexists. by split; [reflexivity|].
  - simpl. lia.
Defined.

Lemma append_all_keeps_head (r : addr) (vals : list pointer) (m m' : Mem) :
  append_all (Some r) vals m = Ok m' ->
  head <$> (repos m' !! r) = head <$> (repos m !! r).
Proof.
  revert m. induction vals as [|v vals IH]; intros m; cbn [append_all].
  - by intros [= <-].
  - destruct (append (Some r) v m) as [m1| |] eqn:Happ; cbn [obind]; [|done..].
    intros Hrest. rewrite (IH _ Hrest). exact (append_keeps_head r v m m1 Happ).
Qed.

(** X5: [append] alone never makes a queue that can be read.  On a
    repository fresh from [create_repo], whatever cells are appended, the
    head stays NULL: [reset] followed by [get] yields nothing. *)
Theorem appended_cells_are_not_read (m m' : Mem) (vals : list pointer) (fuel : nat) :
  append_all (Some (fst (create_repo m))) vals (snd (create_repo m)) = Ok m' ->
  queue_cells (S fuel) (Some (fst (create_repo m))) m' = Ok [].
Proof.
  intros Happ. apply append_all_keeps_head in Happ.
  unfold create_repo in *. cbn [fst snd store_repo repos] in Happ.
  rewrite lookup_insert_eq in Happ.
  destruct (repos m' !! _) as [R|] eqn:HR; [|done].
  injection Happ as Hh. cbn [fst].
  unfold queue_cells, reset. rewrite (load_repo_Some _ _ _ HR). cbn [obind snd].
  apply (get_all_chain _ [] _ (set_crnt R (head R))); [apply lookup_insert_eq|done|simpl; lia].
Qed.

Lemma appended_cells_are_not_read_witness :
  exists m',
    append_all (Some 2%positive) [Some 7%positive; Some 7%positive]
               (snd (create_repo repo_and_cell)) = Ok m' /\
    queue_cells 1 (Some 2%positive) m' = Ok [].
Proof.
  eexists. split; [vm_compute; reflexivity|].
  apply (appended_cells_are_not_read repo_and_cell _ [Some 7%positive; Some 7%positive] 0).
  vm_compute. reflexivity.
Defined.

Lemma show_vars_loop_chain (m : Mem) (p : pointer) (l : list addr) (fuel : nat) :
  chain m p l ->
  (length l < fuel)%nat ->
  show_vars_loop fuel p m = Ok (lines_of m l) /\ length (lines_of m l) = length l.
Proof.
  revert p fuel. induction l as [|a l IH]; intros p fuel Hl Hfuel;
    (destruct fuel as [|fuel]; [simpl in Hfuel; lia|]); cbn [show_vars_loop].
  - simpl in Hl. by rewrite Hl.
  - destruct Hl as (-> & V & HV & Hl).
    rewrite (load_value_Some _ _ _ HV). cbn [obind].
    destruct (IH (next V) fuel Hl) as [Hrest Hlen]; [simpl in Hfuel; lia|].
    rewrite Hrest. simpl. rewrite HV. simpl. by rewrite Hlen.
Qed.

(** X6: [show_vars] prints the stack, top first.  For a NULL repository it
    prints the heading, "list is empty" and a blank line; for a repository
    whose cells linked from the head are [l] it prints the heading, one
    line per cell of [l] in order, and a blank line. *)
Theorem show_vars_lists_the_stack (m : Mem) (r : addr) (R : ValueRepo) (l : list addr)
    (fuel : nat) :
  show_vars fuel NULL m = Ok [All_variables; List_is_empty; Blank_line] /\
  (repos m !! r = Some R ->
   chain m (head R) l ->
   (length l < fuel)%nat ->
   show_vars fuel (Some r) m = Ok (All_variables :: lines_of m l ++ [Blank_line]) /\
   length (lines_of m l) = length l).
Proof.
  split; [done|]. intros HR Hl Hfuel.
  destruct (show_vars_loop_chain m (head R) l fuel Hl Hfuel) as [Hloop Hlen].
  split; [|done]. unfold show_vars. rewrite (load_repo_Some _ _ _ HR). cbn [obind].
  by rewrite Hloop.
Qed.

Lemma show_vars_lists_the_stack_witness :
  show_vars 3 (Some 1%positive) two_cell_stack =
    Ok [All_variables; Number_line 3; Oper_line "PLUS"; Blank_line].
Proof.
  destruct (show_vars_lists_the_stack two_cell_stack 1%positive
              (mkRepo (Some 7%positive) NULL NULL) [7%positive; 8%positive] 3)
    as [_ H].
  destruct H as [H _]; [reflexivity| |simpl; lia|exact H].
  simpl. split; [done|]. eexists. split; [reflexivity|]. simpl.
  split; [done|]. eexists. by split; [reflexivity|].
Defined.

(** X7: once the top cell has been pushed a second time, [show_vars] never
    gets to the end of the list: it runs out of every budget. *)
Theorem show_vars_never_ends_on_cycle (m : Mem) (r v : addr) (R : ValueRepo) (V : Value) :
  repos m !! r = Some R ->
  head R = Some v ->
  values m !! v = Some V ->
  exists m1,
    push (Some r) (Some v) m = Ok m1 /\
    forall fuel, show_vars fuel (Some r) m1 = Timeout.
Proof.
  intros HR Hh HV. eexists. split.
  { unfold push. by rewrite (load_repo_Some _ _ _ HR), (load_value_Some _ _ _ HV). }
  set (m1 := store_repo r _ _).
  assert (Hv : load_value v m1 = Ok (set_next V (Some v))).
  { unfold load_value. subst m1. simpl. by rewrite lookup_insert_eq, Hh. }
  assert (Hr : load_repo r m1 = Ok (set_head R (Some v))).
  { unfold load_repo. subst m1. simpl. by rewrite lookup_insert_eq. }
  clearbody m1. intros fuel. unfold show_vars. rewrite Hr. cbn [obind set_head head].
  assert (Hloop : show_vars_loop fuel (Some v) m1 = Timeout).
  { induction fuel as [|fuel IH]; cbn [show_vars_loop]; [done|].
    rewrite Hv. cbn [obind set_next next]. by rewrite IH. }
  by rewrite Hloop.
Qed.

Lemma show_vars_never_ends_on_cycle_witness :
  exists m1,
    push (Some 1%positive) (Some 7%positive) two_cell_stack = Ok m1 /\
    forall fuel, show_vars fuel (Some 1%positive) m1 = Timeout.
Proof.
  exact (show_vars_never_ends_on_cycle two_cell_stack 1%positive 7%positive
           (mkRepo (Some 7%positive) NULL NULL)
           (mkValue V_NUM T_NUM 3 (text "3") (Some 8%positive)) eq_refl eq_refl eq_refl).
Defined.

(** ** Token names *)

(** X8: [tokToStr] gives every token type a name of its own: two token
    types with the same name are the same type, and no name is
    "UNKNOWN". *)
Theorem tokToStr_injective (a b : TokType) :
  (tokToStr a = tokToStr b -> a = b) /\ tokToStr a <> "UNKNOWN"%string.
Proof.
  split; [|by destruct a].
  destruct a, b; intros H; first [reflexivity | discriminate H].
Qed.

Lemma tokToStr_injective_witness : tokToStr T_LTE <> "UNKNOWN"%string /\ T_LTE = T_LTE.
Proof.
  destruct (tokToStr_injective T_LTE T_LTE) as [Hinj Hname].
  exact (conj Hname (Hinj eq_refl)).
Defined.

(** ** More on the tokenizer *)

Lemma has_case_classes (ch : Z) :
  has_case ch = true ->
  isalpha ch || (ch =? 95) = false /\ isdigit ch = false /\ (ch =? -1) = false.
Proof.
  intros H. apply has_case_labels in H. simpl in H.
  repeat (destruct H as [<-|H]; [by vm_compute|]). done.
Qed.

Lemma symbol_char_spec (ch : Z) :
  isalpha ch || (ch =? 95) = true ->
  has_case ch = false /\ (ch =? -1) = false /\ 0 < ch.
Proof.
  intros H. destruct (has_case ch) eqn:Hcase.
  { apply has_case_classes in Hcase as [Hsym _]. congruence. }
  split; [done|]. unfold isalpha in H.
  apply orb_true_iff in H as [H|H].
  - apply orb_true_iff in H as [H|H]; apply andb_true_iff in H as [Hlo _];
      apply Z.leb_le in Hlo; (split; [apply Z.eqb_neq|]; lia).
  - apply Z.eqb_eq in H. split; [apply Z.eqb_neq|]; lia.
Qed.

Lemma read_symbol_loop_negative (fuel : nat) (ch : Z) (acc : list ascii) (b : InputBuffer) :
  ch < 0 -> read_symbol_loop fuel ch acc b = Ok (acc, b).
Proof.
  intros Hneg.
  assert (Hcond : isalpha ch || (ch =? 95) = false).
  { destruct (isalpha ch || (ch =? 95)) eqn:H; [|done].
    apply symbol_char_spec in H. lia. }
  destruct fuel; simpl; by rewrite Hcond.
Qed.

Lemma symbol_char_not_NUL (c : ascii) : symbol_char c = true -> Ascii.eqb c NUL = false.
Proof.
  intros H. destruct (Ascii.eqb_spec c NUL) as [->|]; [|done].
  by vm_compute in H.
Qed.

Lemma cstring_symbol (l : list ascii) :
  forallb symbol_char l = true -> cstring l = l.
Proof.
  induction l as [|c l IH]; simpl; [done|].
  intros H. apply andb_true_iff in H as [Hc Hl].
  by rewrite (symbol_char_not_NUL c Hc), (IH Hl).
Qed.

Lemma read_symbol_loop_run (run pre rest acc : list ascii) (fuel : nat) :
  forallb symbol_char run = true ->
  match rest with [] => True | c :: _ => symbol_char c = false end ->
  (length acc + length run <= BUFSZ)%nat ->
  (length run + length rest <= fuel)%nat ->
  let b := mkBuf (pre ++ run ++ rest) (length pre) in
  read_symbol_loop fuel (read_char b) acc b =
    Ok (acc ++ run, mkBuf (pre ++ run ++ rest) (length pre + length run)).
Proof.
  revert pre acc fuel. induction run as [|c run IH]; intros pre acc fuel Hrun Hrest Hroom Hfuel b.
  - subst b. simpl. rewrite app_nil_r, Nat.add_0_r.
    destruct rest as [|c rest].
    + apply read_symbol_loop_negative.
      rewrite read_char_end; [lia|]. simpl. apply lookup_ge_None. rewrite app_nil_r. lia.
    + rewrite (read_char_at _ c).
      2:{ simpl. by rewrite lookup_app_r, Nat.sub_diag by lia. }
      unfold symbol_char in Hrest.
      destruct fuel; simpl; by rewrite Hrest.
  - simpl in Hrun. apply andb_true_iff in Hrun as [Hc Hrun].
    simpl in Hroom, Hfuel.
    assert (Hat : buf b !! idx b = Some c).
    { subst b. simpl. by rewrite lookup_app_r, Nat.sub_diag by lia. }
    assert (Hshape : mkBuf (buf b) (S (idx b)) =
                     mkBuf ((pre ++ [c]) ++ run ++ rest) (length (pre ++ [c]))).
    { subst b. simpl. rewrite <- app_assoc. simpl. f_equal.
      rewrite length_app. simpl. lia. }
    clearbody b.
    rewrite (read_char_at b c Hat).
    destruct fuel as [|fuel]; [lia|]. simpl.
    unfold symbol_char in Hc. rewrite Hc.
    unfold buf_put. destruct (Nat.ltb_spec (length acc) BUFSZ) as [_|Hge]; [|lia].
    simpl. rewrite (consume_char_at b c Hat), char_roundtrip. simpl.
    rewrite Hshape.
    match goal with
    | |- (if ?ch <? 0 then _ else ?loop) = _ =>
        transitivity loop;
        [destruct (Z.ltb_spec ch 0);
         [symmetry; by apply read_symbol_loop_negative | reflexivity]|]
    end.
    specialize (IH (pre ++ [c]) (acc ++ [c]) fuel Hrun Hrest).
    simpl in IH. rewrite IH.
    + rewrite <- !app_assoc. simpl.
      replace (length (pre ++ [c]) + length run)%nat
        with (length pre + S (length run))%nat by (rewrite length_app; simpl; lia).
      reflexivity.
    + rewrite length_app. simpl. lia.
    + lia.
Qed.

(** X9: with the cursor on a letter or an underscore, the tokenizer
    consumes the longest run of letters and underscores that starts there
    (digits end it), provided the run is shorter than the 1024-byte token
    array; the token is [T_SYM], its text is the run, and the cursor stops
    right after the run.  Words such as "and", "or", "not" are symbols like
    any other. *)
Theorem symbol_token_maximal_run (s : Lexer) (c : ascii) (run rest : list ascii) :
  drop (idx (buffer s)) (buf (buffer s)) = c :: run ++ rest ->
  forallb symbol_char (c :: run) = true ->
  match rest with [] => True | d :: _ => symbol_char d = false end ->
  (length (c :: run) < BUFSZ)%nat ->
  consume_token s =
    Ok (mkLexer (mkBuf (buf (buffer s)) (idx (buffer s) + length (c :: run)))
                (mkToken T_SYM (Some (c :: run))) (stderr s)).
Proof.
  destruct s as [[bf ix] tk er]. cbn [buffer buf idx stderr].
  intros Hdrop Hsym Hrest Hlen.
  assert (Hbf : bf = take ix bf ++ (c :: run) ++ rest).
  { simpl. by rewrite <- Hdrop, take_drop. }
  assert (Hix : ix = length (take ix bf)).
  { rewrite length_take. destruct (Nat.le_gt_cases (length bf) ix) as [Hge|Hlt]; [|lia].
    by rewrite (drop_ge _ _ Hge) in Hdrop. }
  remember (take ix bf) as pre eqn:Hpre. clear Hpre Hdrop. subst bf ix.
  set (b := mkBuf (pre ++ (c :: run) ++ rest) (length pre)).
  assert (Hat : buf b !! idx b = Some c).
  { subst b. simpl. by rewrite lookup_app_r, Nat.sub_diag by lia. }
  assert (Hc : isalpha (int_of_char c) || (int_of_char c =? 95) = true).
  { simpl in Hsym. by apply andb_true_iff in Hsym as [Hc _]. }
  destruct (symbol_char_spec _ Hc) as (Hcase & Hend & _).
  unfold consume_token. cbn [buffer stderr]. fold b.
  rewrite token_loop_other by (by rewrite (read_char_at b c Hat)).
  rewrite (read_char_at b c Hat). unfold other. rewrite Hend, Hc.
  unfold read_symbol.
  pose proof (read_symbol_loop_run (c :: run) pre rest [] (len b - idx b) Hsym Hrest)
    as Hloop.
  cbn zeta in Hloop. fold b in Hloop. rewrite Hloop.
  - cbn [obind finish fst snd lbuf ttype_ app]. rewrite overwrite_nil.
    unfold strdup. rewrite (cstring_symbol _ Hsym).
    destruct (Nat.ltb_spec (length (c :: run)) BUFSZ) as [_|Hge];
      [|exfalso; clear -Hlen Hge; lia].
    reflexivity.
  - cbn [length Nat.add] in *. lia.
  - subst b. unfold len. cbn [buf idx]. rewrite !length_app. cbn [length]. lia.
Qed.

Lemma symbol_token_maximal_run_witness :
  consume_token (start "and_b2 or") =
    Ok (mkLexer (mkBuf (text "and_b2 or") 5) (mkToken T_SYM (Some (text "and_b"))) []).
Proof.
  refine (symbol_token_maximal_run (start "and_b2 or") "a"%char (text "nd_b") (text "2 or")
            eq_refl eq_refl eq_refl _).
  vm_compute. lia.
Defined.

Lemma token_loop_types (fuel : nat) (l : Locals) (b : InputBuffer) (e : list diag) r :
  token_loop fuel l b e = Ok r ->
  ttype_ l <> T_AND /\ ttype_ l <> T_OR ->
  ttype_ (fst (fst r)) <> T_AND /\ ttype_ (fst (fst r)) <> T_OR.
Proof.
  revert l b r. induction fuel as [|fuel IH]; intros l b r; [done|].
  simpl.
  repeat case_match; try apply IH;
    unfold single, lookahead, other, finish, obind; simpl;
    repeat (case_match; simplify_eq/=); try done;
    intros [= <-] ?; simpl; try done.
Qed.

(** X10: the tokenizer never yields [T_AND] or [T_OR]: no input makes it
    produce these two token types. *)
Theorem tokenizer_never_yields_and_or (s s' : Lexer) :
  consume_token s = Ok s' ->
  type (tok s') <> T_AND /\ type (tok s') <> T_OR.
Proof.
  unfold consume_token.
  destruct (token_loop _ _ _ _) as [[[l b] e]| |] eqn:Hloop; cbn [obind]; [|done..].
  destruct (strdup (lbuf l)); cbn [obind]; [|done..].
  intros [= <-]. cbn [tok type].
  by apply (token_loop_types _ _ _ _ _ Hloop).
Qed.

Lemma tokenizer_never_yields_and_or_witness :
  type (mkToken T_SYM (Some (text "or"))) <> T_AND /\
  type (mkToken T_SYM (Some (text "or"))) <> T_OR.
Proof.
  exact (tokenizer_never_yields_and_or (start "or")
           (mkLexer (mkBuf (text "or") 2) (mkToken T_SYM (Some (text "or"))) []) eq_refl).
Defined.

(** X11: each of '+', '-', '*', '/', '%', '^', '(' and ')' under the cursor
    is a token by itself: the token type is the operator's, the text is
    that one character, and the cursor moves by one. *)
Theorem single_operator_tokens (s : Lexer) (c : ascii) (t : TokType) :
  buf (buffer s) !! idx (buffer s) = Some c ->
  single_operator c = Some t ->
  consume_token s =
    Ok (mkLexer (mkBuf (buf (buffer s)) (S (idx (buffer s))))
                (mkToken t (Some [c])) (stderr s)).
Proof.
  destruct s as [b tk er]. cbn [buffer stderr]. intros Hc Hop.
  unfold consume_token. cbn [buffer stderr token_loop].
  rewrite (read_char_at b c Hc).
  unfold single_operator in Hop.
  repeat match type of Hop with
         | context [Ascii.eqb ?x ?y] =>
             destruct (Ascii.eqb_spec x y);
             [subst; injection Hop as <-; simpl; unfold single; simpl;
              rewrite (consume_char_at b _ Hc); reflexivity|]
         end.
  discriminate.
Qed.

Lemma single_operator_tokens_witness :
  consume_token (start "^2") =
    Ok (mkLexer (mkBuf (text "^2") 1) (mkToken T_CARAT (Some (text "^"))) []).
Proof.
  exact (single_operator_tokens (start "^2") "^"%char T_CARAT eq_refl eq_refl).
Defined.

Lemma is_blank_spec (c : ascii) :
  is_blank c = true -> int_of_char c = 32 \/ int_of_char c = 9.
Proof.
  unfold is_blank. intros H. apply orb_true_iff in H as [H|H];
    apply Ascii.eqb_eq in H; subst; [by left|by right].
Qed.

Lemma consume_token_blank_step (b : InputBuffer) (tk : Token) (er : list diag) (c : ascii) :
  buf b !! idx b = Some c ->
  is_blank c = true ->
  consume_token (mkLexer b tk er) =
  consume_token (mkLexer (mkBuf (buf b) (S (idx b))) tk er).
Proof.
  intros Hc Hblank. unfold consume_token. cbn [buffer stderr].
  pose proof (lookup_lt_Some _ _ _ Hc) as Hlt.
  assert (Hskip : token_loop (S (len b - idx b)) (mkLocals [] T_END_BUF) b er =
                  token_loop (len b - idx b) (mkLocals [] T_END_BUF)
                             (mkBuf (buf b) (S (idx b))) er).
  { cbn [token_loop]. rewrite (read_char_at b c Hc), (consume_char_at b c Hc).
    by destruct (is_blank_spec c Hblank) as [-> | ->]. }
  rewrite Hskip. unfold len. cbn [buf idx].
  by replace (S (length (buf b) - S (idx b))) with (length (buf b) - idx b)%nat by lia.
Qed.

Lemma consume_token_skip_blanks (blanks rest : list ascii) (b : InputBuffer)
    (tk : Token) (er : list diag) :
  drop (idx b) (buf b) = blanks ++ rest ->
  forallb is_blank blanks = true ->
  consume_token (mkLexer b tk er) =
  consume_token (mkLexer (mkBuf (buf b) (idx b + length blanks)) tk er).
Proof.
  revert b. induction blanks as [|c blanks IH]; intros b Hdrop Hblank.
  - simpl. rewrite Nat.add_0_r. by destruct b.
  - simpl in Hblank. apply andb_true_iff in Hblank as [Hc Hblank].
    assert (Hat : buf b !! idx b = Some c).
    { rewrite <- (Nat.add_0_r (idx b)), <- lookup_drop, Hdrop. done. }
    rewrite (consume_token_blank_step b tk er c Hat Hc).
    rewrite (IH (mkBuf (buf b) (S (idx b)))); [|cbn [buf idx]|done].
    + cbn [buf idx length]. by replace (S (idx b) + length blanks)%nat
        with (idx b + S (length blanks))%nat by lia.
    + replace (S (idx b)) with (idx b + 1)%nat by lia.
      by rewrite <- drop_drop, Hdrop.
Qed.

Lemma consume_token_at_end (b : InputBuffer) (tk : Token) (er : list diag) :
  buf b !! idx b = None ->
  consume_token (mkLexer b tk er) = Ok (mkLexer b (mkToken T_END_BUF (Some [])) er).
Proof.
  intros Hend. unfold consume_token. cbn [buffer stderr].
  rewrite token_loop_other by (by rewrite (read_char_end b Hend)).
  by rewrite (read_char_end b Hend).
Qed.

(** X12: blanks produce no token.  Spaces and tabs under the cursor are
    skipped, and the token read is the one that follows them; when nothing
    but blanks is left, the token is [T_END_BUF] with an empty text and the
    cursor at the end of the text. *)
Theorem blanks_are_skipped (s : Lexer) :
  (forall blanks rest : list ascii,
     drop (idx (buffer s)) (buf (buffer s)) = blanks ++ rest ->
     forallb is_blank blanks = true ->
     consume_token s =
     consume_token (mkLexer (mkBuf (buf (buffer s)) (idx (buffer s) + length blanks))
                            (tok s) (stderr s))) /\
  (forallb is_blank (drop (idx (buffer s)) (buf (buffer s))) = true ->
   consume_token s =
     Ok (mkLexer (mkBuf (buf (buffer s))
                        (idx (buffer s) + length (drop (idx (buffer s)) (buf (buffer s)))))
                 (mkToken T_END_BUF (Some [])) (stderr s))).
Proof.
  destruct s as [b tk er]. cbn [buffer tok stderr]. split.
  - intros blanks rest. apply consume_token_skip_blanks.
  - intros Hblank.
    rewrite (consume_token_skip_blanks (drop (idx b) (buf b)) [] b tk er);
      [|by rewrite app_nil_r|done].
    apply consume_token_at_end. cbn [buf idx].
    apply lookup_ge_None. rewrite length_drop. lia.
Qed.

Lemma blanks_are_skipped_witness :
  consume_token (start "  <= 3") =
    consume_token (mkLexer (mkBuf (text "  <= 3") 2) (mkToken T_END_BUF None) []) /\
  consume_token (mkLexer (mkBuf (text "1  ") 1) (mkToken T_END_BUF None) []) =
    Ok (mkLexer (mkBuf (text "1  ") 3) (mkToken T_END_BUF (Some [])) []).
Proof.
  split.
  - exact (proj1 (blanks_are_skipped (start "  <= 3")) (text "  ") (text "<= 3")
             eq_refl eq_refl).
  - exact (proj2 (blanks_are_skipped (mkLexer (mkBuf (text "1  ") 1) (mkToken T_END_BUF None) []))
             eq_refl).
Defined.

Lemma consume_char_mono (b : InputBuffer) : (idx b <= idx (snd (consume_char b)))%nat.
Proof. unfold consume_char. destruct (idx b <? len b)%nat; simpl; lia. Qed.

Lemma token_loop_mono (fuel : nat) (l : Locals) (b : InputBuffer) (e : list diag) r :
  token_loop fuel l b e = Ok r -> (idx b <= idx (snd (fst r)))%nat.
Proof.
  revert l b r. induction fuel as [|fuel IH]; intros l b r; [done|].
  pose proof (consume_char_mono b) as Hle.
  pose proof (consume_char_mono (snd (consume_char b))) as Hle2.
  simpl.
  repeat case_match;
    try (intros Hrun; apply IH in Hrun; lia);
    unfold single, lookahead, other, finish, obind; simpl;
    repeat (case_match; simplify_eq/=);
    try (intros [= <-]; simpl; lia);
    try done.
  all: intros [= <-]; simpl;
       match goal with
       | H : read_symbol _ = Ok _ |- _ =>
           unfold read_symbol in H; by apply read_symbol_loop_idx in H as [? _]
       | H : read_number _ = Ok _ |- _ =>
           unfold read_number in H; by apply read_number_loop_idx in H as [? _]
       end.
Qed.

Lemma token_loop_diag (fuel : nat) (l : Locals) (b : InputBuffer) (e : list diag) r :
  token_loop fuel l b e = Ok r ->
  ttype_ l <> T_ERROR ->
  (ttype_ (fst (fst r)) = T_ERROR /\ exists ch, snd r = e ++ [Unhandled_character ch]) \/
  (ttype_ (fst (fst r)) <> T_ERROR /\ snd r = e).
Proof.
  revert l b r. induction fuel as [|fuel IH]; intros l b r; [done|].
  simpl.
  repeat case_match; try apply IH;
    unfold single, lookahead, other, finish, obind; simpl;
    repeat (case_match; simplify_eq/=); try done;
    intros [= <-] ?; simpl; first [by right | left; by eauto].
Qed.

(** X13: what one tokenizer call does to the program state.  The text in
    the buffer is untouched; the cursor never moves back and never leaves
    the text; it moves forward for every token but the end marker; and the
    error stream gets one "unhandled character" message exactly when the
    token is [T_ERROR], nothing otherwise. *)
Theorem tokenizer_effects (s s' : Lexer) :
  consume_token s = Ok s' ->
  buf (buffer s') = buf (buffer s) /\
  (idx (buffer s) <= idx (buffer s') <= Nat.max (idx (buffer s)) (len (buffer s)))%nat /\
  (type (tok s') <> T_END_BUF -> (idx (buffer s) < idx (buffer s'))%nat) /\
  (type (tok s') = T_ERROR ->
     exists ch, stderr s' = stderr s ++ [Unhandled_character ch]) /\
  (type (tok s') <> T_ERROR -> stderr s' = stderr s).
Proof.
  intros Hrun.
  split; [by apply consume_token_buf|].
  split; [split; [|by apply consume_token_bound]|].
  { revert Hrun. unfold consume_token.
    destruct (token_loop _ _ _ _) as [[[l b] e]| |] eqn:Hloop; cbn [obind]; [|done..].
    destruct (strdup (lbuf l)); cbn [obind]; [|done..].
    intros [= <-]. cbn [buffer]. by apply token_loop_mono in Hloop. }
  split; [by apply consume_token_progress|].
  revert Hrun. unfold consume_token.
  destruct (token_loop _ _ _ _) as [[[l b] e]| |] eqn:Hloop; cbn [obind]; [|done..].
  destruct (strdup (lbuf l)); cbn [obind]; [|done..].
  intros [= <-]. cbn [tok type stderr].
  apply token_loop_diag in Hloop; [|done]. cbn [fst snd] in Hloop.
  destruct Hloop as [[Hty [ch ->]] | [Hty ->]]; split; intros H; by eauto.
Qed.

Lemma tokenizer_effects_witness :
  buf (mkBuf (text "@ 1") 1) = buf (buffer (start "@ 1")) /\
  (0 <= 1 <= Nat.max 0 3)%nat /\
  exists ch, [Unhandled_character 64] = [] ++ [Unhandled_character ch].
Proof.
  destruct (tokenizer_effects (start "@ 1")
              (mkLexer (mkBuf (text "@ 1") 1) (mkToken T_ERROR (Some []))
                       [Unhandled_character 64]) eq_refl)
    as (Hbuf & Hidx & _ & Herr & _).
  exact (conj Hbuf (conj Hidx (Herr eq_refl))).
Defined.

(** *** The 1024-byte token array *)

Lemma read_number_loop_overflow (run pre rest acc : list ascii) (fuel : nat) :
  forallb numeric_char run = true ->
  (length acc <= BUFSZ)%nat ->
  (BUFSZ < length acc + length run)%nat ->
  (length run + length rest <= fuel)%nat ->
  let b := mkBuf (pre ++ run ++ rest) (length pre) in
  read_number_loop fuel (read_char b) acc b = Fault.
Proof.
  revert pre acc fuel. induction run as [|c run IH]; intros pre acc fuel Hrun Hacc Hover Hfuel b.
  { simpl in Hover. lia. }
  simpl in Hrun. apply andb_true_iff in Hrun as [Hc Hrun].
  simpl in Hover, Hfuel.
  assert (Hat : buf b !! idx b = Some c).
  { subst b. simpl. by rewrite lookup_app_r, Nat.sub_diag by lia. }
  assert (Hshape : mkBuf (buf b) (S (idx b)) =
                   mkBuf ((pre ++ [c]) ++ run ++ rest) (length (pre ++ [c]))).
  { subst b. simpl. rewrite <- app_assoc. simpl. f_equal.
    rewrite length_app. simpl. lia. }
  clearbody b.
  rewrite (read_char_at b c Hat).
  destruct fuel as [|fuel]; [lia|]. simpl.
  unfold numeric_char in Hc. rewrite Hc.
  unfold buf_put. destruct (Nat.ltb_spec (length acc) BUFSZ) as [Hlt|Hge]; [|done].
  simpl. rewrite (consume_char_at b c Hat), char_roundtrip. simpl.
  rewrite Hshape.
  specialize (IH (pre ++ [c]) (acc ++ [c]) fuel Hrun).
  simpl in IH. rewrite IH.
  - destruct run as [|d run]; [simpl in Hover; lia|].
    rewrite (read_char_at _ d).
    2:{ simpl. by rewrite lookup_app_r, Nat.sub_diag by lia. }
    simpl in Hrun. apply andb_true_iff in Hrun as [Hd _].
    unfold numeric_char, isdigit in Hd.
    destruct (Z.ltb_spec (int_of_char d) 0) as [Hneg|_]; [|done].
    exfalso. apply orb_true_iff in Hd as [Hd|Hd].
    + apply andb_true_iff in Hd as [Hd _]. apply Z.leb_le in Hd. lia.
    + apply Z.eqb_eq in Hd. lia.
  - rewrite length_app. simpl. lia.
  - rewrite length_app. simpl. lia.
  - lia.
Qed.

(** X14: a number that does not fit the token array is not read.  With the
    cursor on a digit that starts a run of 1024 or more digits and
    decimal points, [consume_token] leaves what C defines: the run and its
    terminator do not fit the 1024 bytes of the local array. *)
Theorem long_number_overflows (s : Lexer) (d : ascii) (run rest : list ascii) :
  drop (idx (buffer s)) (buf (buffer s)) = d :: run ++ rest ->
  isdigit (int_of_char d) = true ->
  forallb numeric_char run = true ->
  match rest with [] => True | c :: _ => numeric_char c = false end ->
  (BUFSZ <= length (d :: run))%nat ->
  consume_token s = Fault.
Proof.
  destruct s as [[bf ix] tk er]. cbn [buffer buf idx stderr].
  intros Hdrop Hd Hrun Hrest Hlen.
  assert (Hbf : bf = take ix bf ++ (d :: run) ++ rest).
  { simpl. by rewrite <- Hdrop, take_drop. }
  assert (Hix : ix = length (take ix bf)).
  { rewrite length_take. destruct (Nat.le_gt_cases (length bf) ix) as [Hge|Hlt]; [|lia].
    by rewrite (drop_ge _ _ Hge) in Hdrop. }
  remember (take ix bf) as pre eqn:Hpre. clear Hpre Hdrop. subst bf ix.
  assert (Hnum : forallb numeric_char (d :: run) = true).
  { simpl. rewrite Hrun. unfold numeric_char. by rewrite Hd. }
  set (b := mkBuf (pre ++ (d :: run) ++ rest) (length pre)).
  assert (Hat : buf b !! idx b = Some d).
  { subst b. simpl. by rewrite lookup_app_r, Nat.sub_diag by lia. }
  assert (Hfuel : (length (d :: run) + length rest <= len b - idx b)%nat).
  { subst b. unfold len. cbn [buf idx]. rewrite !length_app. lia. }
  unfold consume_token. cbn [buffer stderr]. fold b.
  rewrite (token_loop_digit _ _ b _ d Hat Hd). unfold read_number.
  destruct (Nat.eq_dec (length (d :: run)) BUFSZ) as [Heq|Hne].
  - pose proof (read_number_loop_run (d :: run) pre rest [] (len b - idx b) Hnum Hrest)
      as Hloop.
    cbn zeta in Hloop. fold b in Hloop. rewrite Hloop; [|simpl in *; lia|done].
    cbn [obind finish fst snd lbuf ttype_ app]. rewrite overwrite_nil.
    unfold strdup. rewrite (cstring_numeric _ Hnum).
    destruct (Nat.ltb_spec (length (d :: run)) BUFSZ) as [Hlt|_]; [lia|done].
  - pose proof (read_number_loop_overflow (d :: run) pre rest [] (len b - idx b) Hnum)
      as Hloop.
    cbn zeta in Hloop. fold b in Hloop. rewrite Hloop; [done|simpl; lia|simpl in *; lia|done].
Qed.

Lemma long_number_overflows_witness :
  consume_token (mkLexer (mkBuf long_number 0) (mkToken T_END_BUF None) []) = Fault.
Proof.
  refine (long_number_overflows (mkLexer (mkBuf long_number 0) (mkToken T_END_BUF None) [])
            "7"%char (replicate 1023 "7"%char) [] _ eq_refl _ I _).
  - vm_compute. reflexivity.
  - vm_compute. reflexivity.
  - vm_compute. lia.
Defined.

Lemma cstring_length (l : list ascii) : (length (cstring l) <= length l)%nat.
Proof.
  induction l as [|c l IH]; simpl; [done|].
  destruct (Ascii.eqb c NUL); simpl; lia.
Qed.

Lemma read_symbol_loop_room (fuel : nat) (acc : list ascii) (b : InputBuffer) :
  (length acc + (len b - idx b) < BUFSZ)%nat ->
  match read_symbol_loop fuel (read_char b) acc b with
  | Ok r => (length (fst r) < BUFSZ)%nat
  | Fault => False
  | Timeout => True
  end.
Proof.
  revert acc b. induction fuel as [|fuel IH]; intros acc b Hroom; simpl.
  - destruct (isalpha _ || _); [done|]. simpl. lia.
  - destruct (isalpha _ || _) eqn:Hcond; [|simpl; lia].
    destruct (read_char_some b) as [Hlt Hb'].
    { intros Heq. by rewrite Heq in Hcond. }
    unfold buf_put. destruct (Nat.ltb_spec (length acc) BUFSZ) as [_|Hge]; [|lia].
    simpl. rewrite Hb'.
    assert (Hroom' : (length (acc ++ [char_of_int (read_char b)]) +
                      (len (mkBuf (buf b) (S (idx b))) - idx (mkBuf (buf b) (S (idx b))))
                      < BUFSZ)%nat).
    { rewrite length_app. unfold len in *. simpl. lia. }
    destruct (_ <? 0); [simpl; rewrite length_app in *; simpl in *; lia|].
    by apply IH.
Qed.

Lemma read_number_loop_room (fuel : nat) (acc : list ascii) (b : InputBuffer) :
  (length acc + (len b - idx b) < BUFSZ)%nat ->
  match read_number_loop fuel (read_char b) acc b with
  | Ok r => (length (fst r) < BUFSZ)%nat
  | Fault => False
  | Timeout => True
  end.
Proof.
  revert acc b. induction fuel as [|fuel IH]; intros acc b Hroom; simpl.
  - destruct (isdigit _ || _); [done|]. simpl. lia.
  - destruct (isdigit _ || _) eqn:Hcond; [|simpl; lia].
    destruct (read_char_some b) as [Hlt Hb'].
    { intros Heq. by rewrite Heq in Hcond. }
    unfold buf_put. destruct (Nat.ltb_spec (length acc) BUFSZ) as [_|Hge]; [|lia].
    simpl. rewrite Hb'.
    assert (Hroom' : (length (acc ++ [char_of_int (read_char b)]) +
                      (len (mkBuf (buf b) (S (idx b))) - idx (mkBuf (buf b) (S (idx b))))
                      < BUFSZ)%nat).
    { rewrite length_app. unfold len in *. simpl. lia. }
    destruct (_ <? 0); [simpl; rewrite length_app in *; simpl in *; lia|].
    by apply IH.
Qed.

Lemma token_loop_room (fuel : nat) (b : InputBuffer) (e : list diag) :
  (len b - idx b < BUFSZ)%nat ->
  match token_loop fuel (mkLocals [] T_END_BUF) b e with
  | Ok r => (length (lbuf (fst (fst r))) < BUFSZ)%nat
  | Fault => False
  | Timeout => True
  end.
Proof.
  revert b. induction fuel as [|fuel IH]; intros b Hroom; [done|].
  assert (H2 : (2 < BUFSZ)%nat) by (unfold BUFSZ; lia).
  destruct (has_case (read_char b)) eqn:Hcase.
  - apply has_case_labels in Hcase. cbn [token_loop].
    assert (Hput : forall ch, buf_put [] ch = Ok [char_of_int ch]) by done.
    assert (Hput2 : forall c ch, buf_put [c] ch = Ok [c; char_of_int ch]) by done.
    pose proof (consume_char_bound b) as [Hle Hlen].
    pose proof (consume_char_mono b) as Hmono.
    simpl in Hcase.
    repeat (destruct Hcase as [Hch|Hcase]; [rewrite <- Hch in *|]); try done.
    1,2: apply IH; lia.
    1-8: unfold single, finish; cbn [lbuf]; rewrite Hput; cbn [obind fst lbuf length]; lia.
    all: unfold lookahead, finish; cbn [lbuf]; rewrite Hput; cbn [obind];
         destruct (_ =? 61); [rewrite Hput2|]; cbn [obind fst lbuf length]; lia.
  - rewrite token_loop_other by done. unfold other, finish. cbn [lbuf ttype_ length Nat.eqb].
    destruct (_ =? -1); [cbn [fst lbuf length]; lia|].
    destruct (isalpha _ || _).
    { pose proof (read_symbol_loop_room (len b - idx b) [] b) as Hsym.
      fold (read_symbol b) in Hsym.
      destruct (read_symbol b) as [r| |]; cbn [obind fst lbuf];
        [rewrite overwrite_nil|..]; apply Hsym; simpl; lia. }
    destruct (isdigit _).
    { pose proof (read_number_loop_room (len b - idx b) [] b) as Hnum.
      fold (read_number b) in Hnum.
      destruct (read_number b) as [r| |]; cbn [obind fst lbuf];
        [rewrite overwrite_nil|..]; apply Hnum; simpl; lia. }
    cbn [fst lbuf length]. lia.
Qed.

Lemma consume_token_room (s : Lexer) :
  (len (buffer s) - idx (buffer s) < BUFSZ)%nat ->
  exists s', consume_token s = Ok s'.
Proof.
  intros Hroom.
  pose proof (consume_token_returns s) as Hret. revert Hret.
  unfold consume_token.
  pose proof (token_loop_room (S (len (buffer s) - idx (buffer s))) (buffer s) (stderr s) Hroom)
    as Hloop.
  destruct (token_loop _ _ _ _) as [[[l b] e]| |]; cbn [obind]; [|done..].
  cbn [fst lbuf] in Hloop. unfold strdup.
  pose proof (cstring_length (lbuf l)) as Hlen.
  destruct (Nat.ltb_spec (length (cstring (lbuf l))) BUFSZ) as [_|Hge]; [|lia].
  cbn [obind]. eauto.
Qed.

(** X15: a text of fewer than 1024 characters is always tokenized.  When
    fewer than 1024 characters lie between the cursor and the end of the
    text, [consume_token] returns a token (the token array cannot
    overflow), and what is left after it is again shorter than 1024
    characters, so every later call returns a token as well. *)
Theorem short_text_is_tokenized (s : Lexer) :
  (len (buffer s) - idx (buffer s) < BUFSZ)%nat ->
  exists s',
    consume_token s = Ok s' /\
    (len (buffer s') - idx (buffer s') < BUFSZ)%nat /\
    exists s'', consume_token s' = Ok s''.
Proof.
  intros Hroom. destruct (consume_token_room s Hroom) as [s' Hrun].
  assert (Hroom' : (len (buffer s') - idx (buffer s') < BUFSZ)%nat).
  { pose proof (consume_token_buf _ _ Hrun) as Hbuf.
    assert (Hmono : (idx (buffer s) <= idx (buffer s'))%nat).
    { revert Hrun. unfold consume_token.
      destruct (token_loop _ _ _ _) as [[[l b] e]| |] eqn:Hloop; cbn [obind]; [|done..].
      destruct (strdup (lbuf l)); cbn [obind]; [|done..].
      intros [= <-]. cbn [buffer]. by apply token_loop_mono in Hloop. }
    unfold len in *. rewrite Hbuf. lia. }
  exists s'. split; [done|]. split; [done|]. by apply consume_token_room.
Qed.

Lemma short_text_is_tokenized_witness :
  exists s',
    consume_token (start "x = 12") = Ok s' /\
    (len (buffer s') - idx (buffer s') < BUFSZ)%nat /\
    exists s'', consume_token s' = Ok s''.
Proof.
  apply (short_text_is_tokenized (start "x = 12")). vm_compute. lia.
Defined.

(** ** [convert] on a whole line *)



Section ConvertLine.

Variable value_args : Token -> ValType * TokType * list ascii * Z.
Variable junk : addr -> pointer.




End ConvertLine.


(** ** Precedence of the other token types *)

(** X17: where [precedence] puts what is not an operator: numbers and
    symbols are the only token types at level 10, the end marker and the
    error token are the only ones at -1, both parentheses share level 0
    with '=', and every other token type lies from 1 to 8, below the
    numbers and symbols. *)
Theorem precedence_ranks (op : TokType) :
  (precedence op = 10 <-> op = T_NUM \/ op = T_SYM) /\
  (precedence op = -1 <-> op = T_END_BUF \/ op = T_ERROR) /\
  (precedence op = 0 <-> op = T_EQUAL \/ op = T_OPAREN \/ op = T_CPAREN) /\
  (precedence op = 10 \/ precedence op = -1 \/ precedence op = 0 \/
   1 <= precedence op <= 8).
Proof.
  destruct op; simpl; repeat split; try lia; try tauto; try (intros H; lia);
    intros H; repeat (destruct H as [H|H]; try discriminate H); discriminate H.
Qed.

(** ** The command loop *)

Lemma same_text_spec (a b : list ascii) : same_text a b = true <-> a = b.
Proof. unfold same_text. by case_decide. Qed.

(** X18: the lines that end the program.  [main] sets [finished] for the
    lines "q", ".quit" and "/quit", and for no other line: ".q" or "quit"
    do not quit. *)
Theorem quit_lines (l : list ascii) :
  command_of (Some l) = Quit <->
  l = text "q" \/ l = text ".quit" \/ l = text "/quit".
Proof.
  split.
  - destruct l as [|c0 l]; [done|]. unfold command_of.
    destruct (Ascii.eqb c0 "?"); [done|].
    destruct (same_text (c0 :: l) (text "q")) eqn:Hq.
    { apply same_text_spec in Hq. auto. }
    destruct (Ascii.eqb_spec c0 ".") as [->|Hdot].
    + cbn [orb]. unfold dot_command. cbn [nth]. change (drop 1 (_ :: l)) with l.
      destruct (same_text l (text "quit")) eqn:Hquit.
      { apply same_text_spec in Hquit. subst. auto. }
      repeat (destruct (_ || _); [done|]). done.
    + destruct (Ascii.eqb_spec c0 "/") as [->|Hslash]; [|done].
      cbn [orb]. unfold dot_command. cbn [nth]. change (drop 1 (_ :: l)) with l.
      destruct (same_text l (text "quit")) eqn:Hquit.
      { apply same_text_spec in Hquit. subst. auto. }
      repeat (destruct (_ || _); [done|]). done.
  - intros [-> | [-> | ->]]; reflexivity.
Qed.

(** X19: after '.' or '/' the next character decides.  Apart from the
    words "quit" and "vars", a command line is dispatched on its second
    character alone, whatever follows it: 'h' help, 'a' variables, 'r',
    's', 'v' the three switches, 'p' print, anything else (the end of the
    line included) an unknown command.  No such line is evaluated as an
    expression. *)
Theorem dot_commands_by_letter (p : ascii) (rest : list ascii) :
  p = "."%char \/ p = "/"%char ->
  rest <> text "quit" ->
  rest <> text "vars" ->
  command_of (Some (p :: rest)) = letter_command (nth 0 rest NUL) /\
  command_of (Some (p :: text "vars")) = Vars /\
  (forall h, command_of (Some (p :: rest)) <> Expression h).
Proof.
  intros Hp Hquit Hvars.
  assert (Hcmd : command_of (Some (p :: rest)) = letter_command (nth 0 rest NUL)).
  { unfold command_of.
    assert (Hq : same_text (p :: rest) (text "q") = false).
    { destruct (same_text _ _) eqn:H; [|done]. apply same_text_spec in H.
      destruct Hp as [-> | ->]; discriminate H. }
    rewrite Hq.
    replace (Ascii.eqb p "?") with false by (by destruct Hp as [-> | ->]).
    replace (Ascii.eqb p "." || Ascii.eqb p "/") with true by (by destruct Hp as [-> | ->]).
    unfold dot_command, letter_command. cbn [nth]. change (drop 1 (p :: rest)) with rest.
    assert (Hno : forall w, rest <> w -> same_text rest w = false).
    { intros w Hw. destruct (same_text rest w) eqn:H; [|done].
      by apply same_text_spec in H. }
    rewrite (Hno _ Hquit), (Hno _ Hvars).
    assert (Hword : forall w c, nth 0 w NUL = c -> w <> [] ->
                      Ascii.eqb (nth 0 rest NUL) c || same_text rest w =
                      Ascii.eqb (nth 0 rest NUL) c).
    { intros w c Hw Hne. destruct (Ascii.eqb_spec (nth 0 rest NUL) c) as [|Hc]; [done|].
      simpl. apply Hno. intros ->. by apply Hc. }
    rewrite (Hword (text "help") "h"%char), (Hword (text "rpn") "r"%char),
      (Hword (text "solve") "s"%char), (Hword (text "verbo") "v"%char),
      (Hword (text "print") "p"%char) by done.
    by rewrite orb_false_r. }
  split; [done|]. split.
  - by destruct Hp as [-> | ->].
  - intros h. rewrite Hcmd. unfold letter_command.
    by repeat (destruct (Ascii.eqb _ _); [done|]).
Qed.

Lemma dot_commands_by_letter_witness :
  command_of (Some (text ".hello")) = Help /\
  command_of (Some (text ".q")) = Unknown_command /\
  command_of (Some (text "/vars")) = Vars.
Proof.
  destruct (dot_commands_by_letter "."%char (text "hello")) as (H1 & _ & _);
    [by left|discriminate..|].
  destruct (dot_commands_by_letter "."%char (text "q")) as (H2 & _ & _);
    [by left|discriminate..|].
  destruct (dot_commands_by_letter "/"%char (text "q")) as (_ & H3 & _);
    [by right|discriminate..|].
  exact (conj H1 (conj H2 H3)).
Defined.

(** X20: which lines reach the tokenizer.  A line is handed to [convert]
    exactly when it is empty, or starts with a character other than '?',
    '.' and '/' and is not "q"; only the non-empty ones are added to the
    history.  When [readline] returns NULL the line is passed on as well,
    to [load_buf(NULL)]. *)
Theorem lines_that_are_evaluated (l : list ascii) (h : bool) :
  (command_of (Some l) = Expression h <->
   (l = [] /\ h = false) \/
   (h = true /\ l <> text "q" /\
    exists c rest, l = c :: rest /\ c <> "?"%char /\ c <> "."%char /\ c <> "/"%char)) /\
  command_of None = No_line.
Proof.
  split; [|done]. split.
  - destruct l as [|c0 l]; [intros [= <-]; by left|].
    unfold command_of.
    destruct (Ascii.eqb_spec c0 "?") as [|Hq]; [done|].
    destruct (same_text (c0 :: l) (text "q")) eqn:Hsame; [done|].
    destruct (Ascii.eqb_spec c0 ".") as [->|Hdot].
    { cbn [orb]. unfold dot_command. cbn [nth]. change (drop 1 (_ :: l)) with l.
      destruct (same_text l (text "quit")); [done|].
      repeat (destruct (_ || _); [done|]). done. }
    destruct (Ascii.eqb_spec c0 "/") as [->|Hslash].
    { cbn [orb]. unfold dot_command. cbn [nth]. change (drop 1 (_ :: l)) with l.
      destruct (same_text l (text "quit")); [done|].
      repeat (destruct (_ || _); [done|]). done. }
    cbn [orb]. intros [= <-]. right. split; [done|]. split.
    + intros Heq. apply same_text_spec in Heq. congruence.
    + by exists c0, l.
  - intros [[-> ->] | (-> & Hnq & c & rest & -> & Hq & Hdot & Hslash)]; [done|].
    unfold command_of.
    destruct (Ascii.eqb_spec c "?"); [done|].
    destruct (same_text (c :: rest) (text "q")) eqn:Hsame.
    { by apply same_text_spec in Hsame. }
    destruct (Ascii.eqb_spec c "."); [done|].
    by destruct (Ascii.eqb_spec c "/").
Qed.

Lemma quit_lines_witness : command_of (Some (text ".quit")) = Quit.
Proof. apply (proj2 (quit_lines (text ".quit"))). right. by left. Defined.

Lemma lines_that_are_evaluated_witness :
  command_of (Some (text "x = 1")) = Expression true.
Proof.
  apply (proj2 (proj1 (lines_that_are_evaluated (text "x = 1") true))).
  right. split; [done|]. split; [discriminate|].
  exists "x"%char, (text " = 1"). by repeat split.
Defined.

(** ** The capacity of the input buffer *)

Lemma grow_cap_spec (fuel : nat) (cap need cap' : Z) :
  0 < cap ->
  grow_cap fuel cap need = Ok cap' ->
  need <= cap' /\
  exists k : nat, cap' = cap * 2 ^ Z.of_nat k /\ (k = 0%nat \/ cap' < 2 * need).
Proof.
  revert cap. induction fuel as [|fuel IH]; intros cap Hpos; simpl.
  - destruct (Z.gtb_spec need cap); [done|]. intros [= <-].
    split; [lia|]. exists 0%nat. split; [simpl; lia|by left].
  - destruct (Z.gtb_spec need cap) as [Hgt|Hle].
    + destruct (Z.gtb_spec (2 * cap) INT_MAX); [done|].
      intros Hrun. apply IH in Hrun as (Hneed & k & -> & Hk); [|lia].
      split; [done|]. exists (S k). split.
      * rewrite Nat2Z.inj_succ, Z.pow_succ_r by lia. lia.
      * right. destruct Hk as [-> | Hk]; [simpl; lia|done].
    + intros [= <-]. split; [lia|]. exists 0%nat. split; [simpl; lia|by left].
Qed.

Lemma grow_cap_ok (fuel : nat) (cap need : Z) :
  0 < cap ->
  need <= 2 ^ 30 ->
  need <= cap * 2 ^ Z.of_nat fuel ->
  exists cap', grow_cap fuel cap need = Ok cap'.
Proof.
  revert cap. induction fuel as [|fuel IH]; intros cap Hpos Hsmall Hfuel; simpl.
  - destruct (Z.gtb_spec need cap); [simpl in Hfuel; lia|by eauto].
  - destruct (Z.gtb_spec need cap) as [Hgt|Hle]; [|by eauto].
    destruct (Z.gtb_spec (2 * cap) INT_MAX) as [Hover|_].
    { unfold INT_MAX in Hover. lia. }
    apply IH; [lia|done|].
    rewrite Nat2Z.inj_succ, Z.pow_succ_r in Hfuel by lia. lia.
Qed.

(** X21: [load_buf] always makes room for the text.  Starting from a
    positive capacity (8 after [create_buf]), the capacity it settles on
    holds the old text, the new string and one byte more; it is the old
    capacity doubled some number of times, and no larger than needed: a
    capacity that was doubled is less than twice the need.  For a need of
    at most 2^30 bytes the doubling stays within [int]. *)
Theorem load_buf_makes_room (cap : Z) (len slen : nat) :
  0 < cap ->
  (forall cap',
     load_buf_cap cap len slen = Ok cap' ->
     Z.of_nat len + Z.of_nat slen + 1 <= cap' /\
     exists k : nat, cap' = cap * 2 ^ Z.of_nat k /\
                     (k = 0%nat \/ cap' < 2 * (Z.of_nat len + Z.of_nat slen + 1))) /\
  (Z.of_nat len + Z.of_nat slen + 1 <= 2 ^ 30 ->
   exists cap', load_buf_cap cap len slen = Ok cap').
Proof.
  intros Hpos. unfold load_buf_cap. cbv zeta. split.
  - intros cap'.
    destruct (Z.gtb_spec (Z.of_nat len + Z.of_nat slen + 1) INT_MAX); [done|].
    by apply grow_cap_spec.
  - intros Hsmall.
    destruct (Z.gtb_spec (Z.of_nat len + Z.of_nat slen + 1) INT_MAX) as [Hover|_].
    { unfold INT_MAX in Hover. lia. }
    apply grow_cap_ok; [done..|].
    assert (2 ^ 30 < 1 * 2 ^ Z.of_nat 31) by (by vm_compute).
    assert (1 * 2 ^ Z.of_nat 31 <= cap * 2 ^ Z.of_nat 31).
    { apply Z.mul_le_mono_nonneg_r; [by vm_compute|lia]. }
    lia.
Qed.

Lemma load_buf_makes_room_witness :
  load_buf_cap create_buf_cap 0 9 = Ok 16 /\
  exists cap', load_buf_cap create_buf_cap 0 9 = Ok cap'.
Proof.
  destruct (load_buf_makes_room create_buf_cap 0 9) as [_ Hok]; [done|].
  split; [reflexivity|]. apply Hok. by vm_compute.
Defined.

(** ** The text of a token *)

Lemma read_char_lookup (b : InputBuffer) :
  read_char b <> -1 ->
  exists c, buf b !! idx b = Some c /\ read_char b = int_of_char c.
Proof.
  intros Hne. destruct (buf b !! idx b) as [c|] eqn:Hc.
  - exists c. split; [done|]. by apply read_char_at.
  - by rewrite (read_char_end b Hc) in Hne.
Qed.

Lemma read_symbol_loop_slice (fuel : nat) (acc : list ascii) (b : InputBuffer) r :
  read_symbol_loop fuel (read_char b) acc b = Ok r ->
  exists run rest,
    fst r = acc ++ run /\
    drop (idx b) (buf b) = run ++ rest /\
    idx (snd r) = (idx b + length run)%nat /\
    forallb symbol_char run = true.
Proof.
  revert acc b. induction fuel as [|fuel IH]; intros acc b; simpl.
  - destruct (isalpha _ || _); [done|]. intros [= <-]. exists [], (drop (idx b) (buf b)).
    simpl. by rewrite app_nil_r, Nat.add_0_r.
  - destruct (isalpha _ || _) eqn:Hcond.
    2:{ intros [= <-]. exists [], (drop (idx b) (buf b)).
        simpl. by rewrite app_nil_r, Nat.add_0_r. }
    destruct (read_char_lookup b) as (c & Hc & Hch).
    { intros Heq. by rewrite Heq in Hcond. }
    unfold buf_put. destruct (length acc <? BUFSZ)%nat; simpl; [|done].
    rewrite (consume_char_at b c Hc), Hch, char_roundtrip. simpl.
    rewrite Hch in Hcond.
    match goal with
    | |- (if ?ch <? 0 then _ else ?loop) = _ -> _ =>
        replace (if ch <? 0 then Ok (acc ++ [c], mkBuf (buf b) (S (idx b))) else loop)
          with loop
          by (destruct (Z.ltb_spec ch 0);
              [by rewrite read_symbol_loop_negative|reflexivity])
    end.
    intros Hrun. apply IH in Hrun as (run & rest & Hfst & Hdrop & Hidx & Hrun).
    cbn [buf idx] in Hdrop, Hidx.
    exists (c :: run), rest. split; [by rewrite Hfst, <- app_assoc|].
    split; [by rewrite (drop_S _ _ _ Hc), Hdrop|].
    split; [simpl; lia|]. simpl. by rewrite Hrun, andb_true_r.
Qed.

Lemma read_number_loop_slice (fuel : nat) (acc : list ascii) (b : InputBuffer) r :
  read_number_loop fuel (read_char b) acc b = Ok r ->
  exists run rest,
    fst r = acc ++ run /\
    drop (idx b) (buf b) = run ++ rest /\
    idx (snd r) = (idx b + length run)%nat /\
    forallb numeric_char run = true.
Proof.
  revert acc b. induction fuel as [|fuel IH]; intros acc b; simpl.
  - destruct (isdigit _ || _); [done|]. intros [= <-]. exists [], (drop (idx b) (buf b)).
    simpl. by rewrite app_nil_r, Nat.add_0_r.
  - destruct (isdigit _ || _) eqn:Hcond.
    2:{ intros [= <-]. exists [], (drop (idx b) (buf b)).
        simpl. by rewrite app_nil_r, Nat.add_0_r. }
    destruct (read_char_lookup b) as (c & Hc & Hch).
    { intros Heq. by rewrite Heq in Hcond. }
    unfold buf_put. destruct (length acc <? BUFSZ)%nat; simpl; [|done].
    rewrite (consume_char_at b c Hc), Hch, char_roundtrip. simpl.
    rewrite Hch in Hcond.
    match goal with
    | |- (if ?ch <? 0 then _ else ?loop) = _ -> _ =>
        replace (if ch <? 0 then Ok (acc ++ [c], mkBuf (buf b) (S (idx b))) else loop)
          with loop
          by (destruct (Z.ltb_spec ch 0);
              [by rewrite read_number_loop_negative|reflexivity])
    end.
    intros Hrun. apply IH in Hrun as (run & rest & Hfst & Hdrop & Hidx & Hrun).
    cbn [buf idx] in Hdrop, Hidx.
    exists (c :: run), rest. split; [by rewrite Hfst, <- app_assoc|].
    split; [by rewrite (drop_S _ _ _ Hc), Hdrop|].
    split; [simpl; lia|]. simpl. by rewrite Hrun, andb_true_r.
Qed.

Lemma char_of_label (c : ascii) (ch : Z) : ch = int_of_char c -> c = char_of_int ch.
Proof. intros ->. by rewrite char_roundtrip. Qed.

Lemma token_loop_slice (fuel : nat) (b : InputBuffer) (e : list diag) r :
  token_loop fuel (mkLocals [] T_END_BUF) b e = Ok r ->
  ttype_ (fst (fst r)) <> T_ERROR ->
  exists blanks rest,
    drop (idx b) (buf b) = blanks ++ lbuf (fst (fst r)) ++ rest /\
    forallb is_blank blanks = true /\
    idx (snd (fst r)) = (idx b + length blanks + length (lbuf (fst (fst r))))%nat /\
    cstring (lbuf (fst (fst r))) = lbuf (fst (fst r)).
Proof.
  revert b r. induction fuel as [|fuel IH]; intros b r; [done|].
  destruct (has_case (read_char b)) eqn:Hcase.
  - destruct (has_case_classes _ Hcase) as (_ & _ & Hend).
    destruct (read_char_lookup b) as (c & Hc & Hch).
    { intros Heq. by rewrite Heq in Hend. }
    apply has_case_labels in Hcase. cbn [token_loop].
    assert (Hput : forall ch, buf_put [] ch = Ok [char_of_int ch]) by done.
    assert (Hput2 : forall c ch, buf_put [c] ch = Ok [c; char_of_int ch]) by done.
    pose proof (consume_char_at b c Hc) as Hcons.
    rewrite Hcons. cbn [snd].
    pose proof (drop_S _ _ _ Hc) as Hdrop.
    simpl in Hcase.
    repeat (destruct Hcase as [Hl|Hcase];
            [rewrite <- Hl in *; apply char_of_label in Hch; subst c|]); try done.
    1,2: intros Hrun Hty; apply IH in Hrun as (blanks & rest & Hd & Hb & Hi & Hcs); [|done];
         cbn [buf idx] in Hd, Hi;
         eexists (_ :: blanks), rest; rewrite Hdrop, Hd;
         (split; [reflexivity|]); (split; [by rewrite <- Hb|]); split; [simpl; lia|done].
    1-8: unfold single, finish; cbn [lbuf]; rewrite Hput, Hcons; cbn [obind];
         intros [= <-] _; cbn [fst snd lbuf buf idx];
         exists [], (drop (S (idx b)) (buf b)); rewrite Hdrop;
         (split; [reflexivity|]); (split; [reflexivity|]); split; [simpl; lia|done].
    all: unfold lookahead, finish; cbn [lbuf]; rewrite Hput, Hcons; cbn [obind snd];
         destruct (Z.eqb_spec (read_char (mkBuf (buf b) (S (idx b)))) 61) as [H61|_];
         [ destruct (read_char_lookup (mkBuf (buf b) (S (idx b)))) as (d & Hd & Hdch);
           [by rewrite H61|];
           rewrite Hput2, (consume_char_at _ d Hd); cbn [obind];
           rewrite H61 in Hdch |- *; apply char_of_label in Hdch; subst d;
           cbn [buf idx] in Hd;
           intros [= <-] _; cbn [fst snd lbuf buf idx];
           exists [], (drop (S (S (idx b))) (buf b));
           rewrite Hdrop, (drop_S _ _ _ Hd);
           (split; [reflexivity|]); (split; [reflexivity|]); split; [simpl; lia|done]
         | intros [= <-] _; cbn [fst snd lbuf buf idx];
           exists [], (drop (S (idx b)) (buf b)); rewrite Hdrop;
           (split; [reflexivity|]); (split; [reflexivity|]); split; [simpl; lia|done] ].
  - rewrite token_loop_other by done. unfold other, finish. cbn [lbuf ttype_ length Nat.eqb].
    destruct (_ =? -1).
    { intros [= <-] _. cbn [fst snd lbuf]. exists [], (drop (idx b) (buf b)).
      simpl. split; [done|]. split; [done|]. split; [lia|done]. }
    destruct (isalpha _ || _).
    { destruct (read_symbol b) as [rs| |] eqn:Hrs; cbn [obind]; [|done..].
      intros [= <-] _. cbn [fst snd lbuf]. rewrite overwrite_nil.
      unfold read_symbol in Hrs.
      apply read_symbol_loop_slice in Hrs as (run & rest & Hfst & Hd & Hi & Hsym).
      simpl in Hfst. rewrite Hfst. exists [], rest. simpl.
      split; [done|]. split; [done|]. split; [lia|by apply cstring_symbol]. }
    destruct (isdigit _).
    { destruct (read_number b) as [rn| |] eqn:Hrn; cbn [obind]; [|done..].
      intros [= <-] _. cbn [fst snd lbuf]. rewrite overwrite_nil.
      unfold read_number in Hrn.
      apply read_number_loop_slice in Hrn as (run & rest & Hfst & Hd & Hi & Hnum).
      simpl in Hfst. rewrite Hfst. exists [], rest. simpl.
      split; [done|]. split; [done|]. split; [lia|by apply cstring_numeric]. }
    by intros [= <-] Hty.
Qed.

(** X22: the text of a token is what was read.  For every token but the
    error token, the characters from the old cursor on are some blanks,
    then exactly the text of the token, then the rest; the new cursor is
    right after the text.  (For the end marker the text is empty.) *)
Theorem token_text_is_the_source (s s' : Lexer) :
  consume_token s = Ok s' ->
  type (tok s') <> T_ERROR ->
  exists blanks t rest,
    str (tok s') = Some t /\
    drop (idx (buffer s)) (buf (buffer s)) = blanks ++ t ++ rest /\
    forallb is_blank blanks = true /\
    idx (buffer s') = (idx (buffer s) + length blanks + length t)%nat.
Proof.
  unfold consume_token.
  destruct (token_loop _ _ _ _) as [[[l b] e]| |] eqn:Hloop; cbn [obind]; [|done..].
  unfold strdup. destruct (_ <? _)%nat; cbn [obind]; [|done].
  intros [= <-]. cbn [tok type str buffer]. intros Hty.
  apply token_loop_slice in Hloop as (blanks & rest & Hd & Hb & Hi & Hcs); [|done].
  cbn [fst snd] in *. rewrite Hcs. by exists blanks, (lbuf l), rest.
Qed.

Lemma token_text_is_the_source_witness :
  exists blanks t rest,
    Some (text ">=") = Some t /\
    drop 1 (text "a  >= b") = blanks ++ t ++ rest /\
    forallb is_blank blanks = true /\
    5%nat = (1 + length blanks + length t)%nat.
Proof.
  exact (token_text_is_the_source
           (mkLexer (mkBuf (text "a  >= b") 1) (mkToken T_SYM (Some (text "a"))) [])
           (mkLexer (mkBuf (text "a  >= b") 5) (mkToken T_GTE (Some (text ">="))) [])
           eq_refl ltac:(discriminate)).
Defined.
